(** * The task API of backend/server.js over its PostgreSQL table and its
      Redis cache

    The development embeds
    - the JavaScript values the handlers exchange, with [JSON.stringify]
      and [JSON.parse] on them;
    - the table [tasks] of database/init-scripts/01-init.sql: its columns,
      defaults and constraints, and its BEFORE UPDATE trigger;
    - the commands the handlers send to Redis (GET, SETEX, DEL) and the two
      statements they send to PostgreSQL;
    - the three handlers of backend/server.js, in a state and exception
      monad over the two collaborators: [await] is the bind of the monad, a
      rejected promise is an exception, [try]/[catch] catches it;
    - the Node process that runs them: handlers suspended at their
      [await]s and resumed in any order, calls to Redis that do not settle
      while Redis cannot be reached, and the exit of the process on an
      ['error'] event, for which server.js registers no listener;
    - the body parser [express.json()] and the page of frontend/src/App.js
      that calls the handlers: its state, [fetchTasks], [createTask] and
      the cards it renders;
    and proves what the handlers guarantee about the read-through cache,
    what the table keeps through every event, and what the page shows.

    The handlers of Part I are the handlers served one at a time: a handler
    runs from its first call to its response before the next event, and
    each of its calls settles: it takes effect and answers, or it is
    answered an error and has no effect.  The Node process tells what
    happens otherwise, and [served_alone_atomic] that a request served alone
    by the process is served as the handler of Part I serves it. *)

From Stdlib Require Import ZArith Ascii String List Lia Bool Permutation Sorted.
From stdpp Require Import gmap strings list fin_maps.

Open Scope Z_scope.

(** * Part I: the model *)

(** ** Characters and texts

    A JavaScript string is a [string]: the UTF-8 bytes of its text, which is
    how both collaborators carry it.  Serialised JSON is a [list ascii]
    inside the codec and a [string] outside. *)

Abbreviation text := (list ascii).

Definition chr (n : N) : ascii := ascii_of_N n.
Definition code (c : ascii) : N := N_of_ascii c.

Definition dquote : ascii := "034"%char.
Definition backslash : ascii := "092"%char.

Definition str (s : string) : text := list_ascii_of_string s.
Definition unstr (l : text) : string := string_of_list_ascii l.

(** ** JavaScript values

    The values that flow through the handlers: what [pg] puts in
    [result.rows] (a number for SERIAL, strings, booleans, [null], a [Date]
    for TIMESTAMP), arrays and plain objects of them.  Numbers are integers:
    [id] is the only numeric column. *)

#[warnings="-register-all"]
Inductive value : Type :=
| VNull
| VBool (b : bool)
| VNum (n : Z)
| VStr (s : string)
| VDate (ms : Z)                      (* a Date: milliseconds since the epoch *)
| VArr (items : list value)
| VObj (members : list (string * value)).

(** ** Decimal and hexadecimal digits *)

Definition digit (d : N) : ascii := chr (48 + d).

Definition is_digit (c : ascii) : bool :=
  ((48 <=? code c) && (code c <=? 57))%N.

Definition digit_val (c : ascii) : N := (code c - 48)%N.

(** The decimal digits of [n], most significant first, pushed in front of
    [acc].  [fuel] bounds the number of digits. *)
Fixpoint digits_acc (fuel : nat) (n : N) (acc : text) : text :=
  match fuel with
  | O => acc
  | S fuel' =>
      let acc' := digit (n mod 10) :: acc in
      if (n <? 10)%N then acc' else digits_acc fuel' (n / 10) acc'
  end.

Definition digits (n : N) : text := digits_acc (S (N.size_nat n)) n [].

(** [n] written on [width] digits, zero-padded (the low [width] digits). *)
Fixpoint pad (width : nat) (n : N) (acc : text) : text :=
  match width with
  | O => acc
  | S w => pad w (n / 10) (digit (n mod 10) :: acc)
  end.

(** Number::toString on an integer. *)
Definition number_to_text (z : Z) : text :=
  if z <? 0 then "-"%char :: digits (Z.to_N (- z)) else digits (Z.to_N z).

Definition hex_digit (d : N) : ascii :=
  if (d <? 10)%N then chr (48 + d) else chr (87 + d).

Definition hex_val (c : ascii) : option N :=
  let n := code c in
  if ((48 <=? n) && (n <=? 57))%N then Some (n - 48)%N
  else if ((97 <=? n) && (n <=? 102))%N then Some (n - 87)%N
  else if ((65 <=? n) && (n <=? 70))%N then Some (n - 55)%N
  else None.

(** ** Date.prototype.toISOString

    [YYYY-MM-DDTHH:mm:ss.sssZ] of an instant given in milliseconds since
    the epoch; a year outside 0..9999 takes a sign and six digits. *)

Definition ms_per_day : Z := 86400000.

(** Civil date (year, month, day) of a day number counted from 1970-01-01
    in the proleptic Gregorian calendar. *)
Definition civil_from_days (days : Z) : Z * Z * Z :=
  let z := days + 719468 in
  let era := z / 146097 in
  let doe := z mod 146097 in
  let yoe := (doe - doe / 1460 + doe / 36524 - doe / 146096) / 365 in
  let doy := doe - (365 * yoe + yoe / 4 - yoe / 100) in
  let mp := (5 * doy + 2) / 153 in
  let d := doy - (153 * mp + 2) / 5 + 1 in
  let m := if mp <? 10 then mp + 3 else mp - 9 in
  let y := yoe + era * 400 + (if m <=? 2 then 1 else 0) in
  (y, m, d).

Definition year_to_text (y : Z) : text :=
  if (0 <=? y) && (y <=? 9999) then pad 4 (Z.to_N y) []
  else (if y <? 0 then "-"%char else "+"%char) :: pad 6 (Z.to_N (Z.abs y)) [].

Definition toISOString (ms : Z) : string :=
  let '(y, m, d) := civil_from_days (ms / ms_per_day) in
  let t := ms mod ms_per_day in
  unstr (year_to_text y ++ "-"%char :: pad 2 (Z.to_N m)
          ("-"%char :: pad 2 (Z.to_N d)
          ("T"%char :: pad 2 (Z.to_N (t / 3600000))
          (":"%char :: pad 2 (Z.to_N (t / 60000 mod 60))
          (":"%char :: pad 2 (Z.to_N (t / 1000 mod 60))
          ("."%char :: pad 3 (Z.to_N (t mod 1000)) ["Z"%char])))))).

(** ** JSON *)

Module JSON.

(** *** JSON.stringify *)

(** QuoteJSONString, one character: the two-character escapes, [\u00xx]
    for the other control characters, the character itself otherwise. *)
Definition escape_char (c : ascii) : text :=
  let n := code c in
  if (n =? 34)%N then [backslash; dquote]
  else if (n =? 92)%N then [backslash; backslash]
  else if (n =? 8)%N then [backslash; "b"%char]
  else if (n =? 9)%N then [backslash; "t"%char]
  else if (n =? 10)%N then [backslash; "n"%char]
  else if (n =? 12)%N then [backslash; "f"%char]
  else if (n =? 13)%N then [backslash; "r"%char]
  else if (n <? 32)%N then
    [backslash; "u"%char; "0"%char; "0"%char; hex_digit (n / 16); hex_digit (n mod 16)]
  else [c].

Definition quote (s : string) : text :=
  dquote :: flat_map escape_char (str s) ++ [dquote].

(** Elements separated by commas. *)
Fixpoint commas (parts : list text) : text :=
  match parts with
  | [] => []
  | [p] => p
  | p :: rest => p ++ ","%char :: commas rest
  end.

(** SerializeJSONProperty: a Date goes through its [toJSON], which is
    [toISOString]. *)
Fixpoint serialize (v : value) : text :=
  match v with
  | VNull => str "null"
  | VBool true => str "true"
  | VBool false => str "false"
  | VNum n => number_to_text n
  | VStr s => quote s
  | VDate ms => quote (toISOString ms)
  | VArr items => "["%char :: commas (map serialize items) ++ ["]"%char]
  | VObj members =>
      "{"%char ::
      commas (map (fun kv => quote (fst kv) ++ ":"%char :: serialize (snd kv)) members)
      ++ ["}"%char]
  end.

Definition stringify (v : value) : string := unstr (serialize v).

(** What [JSON.stringify] makes of a value, as a value: a Date has become
    its ISO string.  This is the value [JSON.parse] gives back. *)
Fixpoint plain (v : value) : value :=
  match v with
  | VDate ms => VStr (toISOString ms)
  | VArr items => VArr (map plain items)
  | VObj members => VObj (map (fun kv => (fst kv, plain (snd kv))) members)
  | _ => v
  end.

(** *** JSON.parse

    The reader of the texts [JSON.stringify] writes for these values: no
    insignificant white space, integers for numbers.  Any other text is a
    SyntaxError ([None]). *)

Fixpoint expect (lit s : text) : option text :=
  match lit, s with
  | [], _ => Some s
  | c :: lit', d :: s' => if Ascii.eqb c d then expect lit' s' else None
  | _ :: _, [] => None
  end.

Fixpoint read_digits (acc : N) (s : text) : N * text :=
  match s with
  | c :: s' => if is_digit c then read_digits (acc * 10 + digit_val c) s' else (acc, s)
  | [] => (acc, [])
  end.

Definition parse_number (s : text) : option (Z * text) :=
  match s with
  | c :: s' =>
      if is_digit c then let '(n, r) := read_digits 0 s in Some (Z.of_N n, r)
      else if Ascii.eqb c "-" then
        match s' with
        | d :: _ =>
            if is_digit d then let '(n, r) := read_digits 0 s' in Some (- Z.of_N n, r)
            else None
        | [] => None
        end
      else None
  | [] => None
  end.

(** The character a two-character escape stands for. *)
Definition unescape (e : ascii) : option ascii :=
  let n := code e in
  if (n =? 34)%N then Some dquote
  else if (n =? 92)%N then Some backslash
  else if (n =? 47)%N then Some "/"%char
  else if (n =? 98)%N then Some (chr 8)
  else if (n =? 116)%N then Some (chr 9)
  else if (n =? 110)%N then Some (chr 10)
  else if (n =? 102)%N then Some (chr 12)
  else if (n =? 114)%N then Some (chr 13)
  else None.

(** The UTF-8 bytes of the code unit of a [\uXXXX] escape; a surrogate has
    none of its own. *)
Definition utf8_of_unit (u : N) : option text :=
  if (u <? 128)%N then Some [chr u]
  else if (u <? 2048)%N then Some [chr (192 + u / 64); chr (128 + u mod 64)]
  else if ((55296 <=? u) && (u <=? 57343))%N then None
  else Some [chr (224 + u / 4096); chr (128 + (u / 64) mod 64); chr (128 + u mod 64)].

Definition hex4 (a b c d : ascii) : option N :=
  match hex_val a, hex_val b, hex_val c, hex_val d with
  | Some x, Some y, Some z, Some w => Some (((x * 16 + y) * 16 + z) * 16 + w)%N
  | _, _, _, _ => None
  end.

(** The characters of a string literal, read after its opening quote, up
    to and including the closing quote. *)
Fixpoint parse_chars (s : text) : option (text * text) :=
  match s with
  | [] => None
  | c :: r =>
      if Ascii.eqb c dquote then Some ([], r)
      else if Ascii.eqb c backslash then
        match r with
        | [] => None
        | e :: r1 =>
            if Ascii.eqb e "u" then
              match r1 with
              | h1 :: h2 :: h3 :: h4 :: r2 =>
                  match hex4 h1 h2 h3 h4 with
                  | Some u =>
                      match utf8_of_unit u, parse_chars r2 with
                      | Some bytes, Some (cs, rest) => Some (bytes ++ cs, rest)
                      | _, _ => None
                      end
                  | None => None
                  end
              | _ => None
              end
            else
              match unescape e, parse_chars r1 with
              | Some c', Some (cs, rest) => Some (c' :: cs, rest)
              | _, _ => None
              end
        end
      else if (code c <? 32)%N then None
      else
        match parse_chars r with
        | Some (cs, rest) => Some (c :: cs, rest)
        | None => None
        end
  end.

Definition parse_string (s : text) : option (string * text) :=
  match s with
  | c :: r =>
      if Ascii.eqb c dquote then
        match parse_chars r with
        | Some (cs, rest) => Some (unstr cs, rest)
        | None => None
        end
      else None
  | [] => None
  end.

(** Recursive descent.  [fuel] bounds the depth of the calls; the length of
    the text is always enough (see [parse]). *)
Fixpoint parse_value (fuel : nat) (s : text) : option (value * text) :=
  match fuel with
  | O => None
  | S fuel' =>
      match s with
      | [] => None
      | c :: r =>
          if is_digit c || Ascii.eqb c "-" then
            match parse_number s with
            | Some (n, rest) => Some (VNum n, rest)
            | None => None
            end
          else if Ascii.eqb c dquote then
            match parse_string s with
            | Some (x, rest) => Some (VStr x, rest)
            | None => None
            end
          else if Ascii.eqb c "n" then
            match expect (str "ull") r with
            | Some rest => Some (VNull, rest)
            | None => None
            end
          else if Ascii.eqb c "t" then
            match expect (str "rue") r with
            | Some rest => Some (VBool true, rest)
            | None => None
            end
          else if Ascii.eqb c "f" then
            match expect (str "alse") r with
            | Some rest => Some (VBool false, rest)
            | None => None
            end
          else if Ascii.eqb c "[" then
            match r with
            | d :: r' =>
                if Ascii.eqb d "]" then Some (VArr [], r')
                else
                  match parse_elements fuel' r with
                  | Some (items, rest) => Some (VArr items, rest)
                  | None => None
                  end
            | [] => None
            end
          else if Ascii.eqb c "{" then
            match r with
            | d :: r' =>
                if Ascii.eqb d "}" then Some (VObj [], r')
                else
                  match parse_members fuel' r with
                  | Some (members, rest) => Some (VObj members, rest)
                  | None => None
                  end
            | [] => None
            end
          else None
      end
  end
with parse_elements (fuel : nat) (s : text) : option (list value * text) :=
  match fuel with
  | O => None
  | S fuel' =>
      match parse_value fuel' s with
      | Some (v, d :: r) =>
          if Ascii.eqb d "," then
            match parse_elements fuel' r with
            | Some (vs, rest) => Some (v :: vs, rest)
            | None => None
            end
          else if Ascii.eqb d "]" then Some ([v], r)
          else None
      | _ => None
      end
  end
with parse_members (fuel : nat) (s : text) : option (list (string * value) * text) :=
  match fuel with
  | O => None
  | S fuel' =>
      match parse_string s with
      | Some (k, c :: r) =>
          if Ascii.eqb c ":" then
            match parse_value fuel' r with
            | Some (v, d :: r') =>
                if Ascii.eqb d "," then
                  match parse_members fuel' r' with
                  | Some (ms, rest) => Some ((k, v) :: ms, rest)
                  | None => None
                  end
                else if Ascii.eqb d "}" then Some ([(k, v)], r')
                else None
            | _ => None
            end
          else None
      | _ => None
      end
  end.

Definition parse (s : string) : option value :=
  match parse_value (S (String.length s)) (str s) with
  | Some (v, []) => Some v
  | _ => None
  end.

End JSON.

(** ** The table [tasks] (database/init-scripts/01-init.sql)

    Instants are counted in milliseconds since the epoch: the resolution of
    the [Date] in which [pg] hands a TIMESTAMP to the handlers, and of a
    Redis expiry. *)

Record Row := {
  id : Z;                          (* SERIAL PRIMARY KEY *)
  title : string;                  (* VARCHAR(255) NOT NULL *)
  description : option string;     (* TEXT *)
  completed : bool;                (* BOOLEAN DEFAULT FALSE *)
  created_at : Z;                  (* TIMESTAMP DEFAULT CURRENT_TIMESTAMP *)
  updated_at : Z                   (* TIMESTAMP DEFAULT CURRENT_TIMESTAMP *)
}.

(** The row as [pg] returns it in [result.rows]. *)
Definition row_to_js (r : Row) : value :=
  VObj [("id", VNum (id r));
        ("title", VStr (title r));
        ("description", match description r with Some d => VStr d | None => VNull end);
        ("completed", VBool (completed r));
        ("created_at", VDate (created_at r));
        ("updated_at", VDate (updated_at r))].

Definition rows_to_js (rows : list Row) : value := VArr (map row_to_js rows).

(** [ORDER BY created_at DESC]: the order the statement asks for. *)
Definition created_desc (a b : Row) : Prop := created_at b <= created_at a.

(** How the server runs [SELECT * FROM tasks ORDER BY created_at DESC]:
    SQL fixes that the result holds the rows of the table, sorted on the
    key, and leaves the order of rows with equal keys to the plan.  The two
    indexes of 01-init.sql ([idx_tasks_created_at], [idx_tasks_completed])
    are among the means of a plan; they add nothing to what a query may
    return. *)
Record Executor := {
  order_by_created_at_desc : list Row -> list Row;
  order_by_perm : forall rows, Permutation (order_by_created_at_desc rows) rows;
  order_by_sorted : forall rows, Sorted created_desc (order_by_created_at_desc rows)
}.

(** VARCHAR(255) counts characters: a continuation byte of UTF-8 starts
    none. *)
Definition is_continuation (c : ascii) : bool := (code c / 64 =? 2)%N.

(** The first [n] characters of [s], and the rest. *)
Fixpoint split_chars (n : nat) (s : text) : text * text :=
  match s with
  | [] => ([], [])
  | c :: r =>
      if is_continuation c then
        let '(a, b) := split_chars n r in (c :: a, b)
      else
        match n with
        | O => ([], s)
        | S n' => let '(a, b) := split_chars n' r in (c :: a, b)
        end
  end.

(** Storing into VARCHAR(255): a longer value is an error, unless the
    excess is spaces only, which are cut. *)
Definition varchar_255 (s : string) : option string :=
  let '(kept, excess) := split_chars 255 (str s) in
  if forallb (Ascii.eqb " ") excess then Some (unstr kept) else None.

Definition not_null_violation : string :=
  unstr (str "null value in column " ++ JSON.quote "title" ++ str " of relation " ++
         JSON.quote "tasks" ++ str " violates not-null constraint").

Definition value_too_long : string := "value too long for type character varying(255)".

(** A text parameter PostgreSQL refuses when it is bound: it holds the
    character U+0000, which no text of the database can hold. *)
Definition has_nul (s : option string) : bool :=
  match s with
  | Some t => existsb (Ascii.eqb "000") (str t)
  | None => false
  end.

Definition invalid_byte_sequence : string :=
  unstr (str "invalid byte sequence for encoding " ++ JSON.quote "UTF8" ++ str ": 0x00").

(** SERIAL is a sequence of [integer]: [nextval] fails once the sequence
    has given 2147483647. *)
Definition int4_max : Z := 2147483647.

Definition sequence_exhausted : string :=
  unstr (str "nextval: reached maximum value of sequence " ++ JSON.quote "tasks_id_seq" ++
         str " (2147483647)").

(** The trigger function [update_updated_at_column], run BEFORE UPDATE for
    each row: [NEW.updated_at = CURRENT_TIMESTAMP; RETURN NEW]. *)
Definition update_updated_at_column (current_timestamp : Z) (NEW : Row) : Row :=
  {| id := id NEW; title := title NEW; description := description NEW;
     completed := completed NEW; created_at := created_at NEW;
     updated_at := current_timestamp |}.

(** ** The world of the handlers *)

(** The calls a handler makes to its collaborators, as they leave it. *)
Inductive Call :=
| PgSelect                                          (* SELECT * FROM tasks ORDER BY ... *)
| PgInsert (title description : option string)      (* INSERT INTO tasks ... RETURNING * *)
| RedisGet (key : string)
| RedisSetEx (key : string) (seconds : Z) (val : string)
| RedisDel (key : string).

Record World := {
  tasks : list Row;                     (* the rows of the table, oldest insertion first *)
  tasks_id_seq : Z;                     (* last value drawn from the SERIAL sequence *)
  redis : gmap string (string * Z);     (* key -> value and instant of expiry *)
  clock : Z;                            (* now *)
  faults : list (option string);        (* what the next calls meet: [Some m], an error reply *)
  trace : list Call                     (* the calls made so far, oldest first *)
}.

(** The world once a call has left the handler: the call is recorded, and
    the fault it was to meet, if any, is consumed. *)
Definition called (c : Call) (w : World) : World :=
  {| tasks := tasks w; tasks_id_seq := tasks_id_seq w; redis := redis w;
     clock := clock w; faults := tail (faults w); trace := trace w ++ [c] |}.

Definition set_table (rows : list Row) (seq : Z) (w : World) : World :=
  {| tasks := rows; tasks_id_seq := seq; redis := redis w;
     clock := clock w; faults := faults w; trace := trace w |}.

Definition set_redis (store : gmap string (string * Z)) (w : World) : World :=
  {| tasks := tasks w; tasks_id_seq := tasks_id_seq w; redis := store;
     clock := clock w; faults := faults w; trace := trace w |}.

Definition tick (d : Z) (w : World) : World :=
  {| tasks := tasks w; tasks_id_seq := tasks_id_seq w; redis := redis w;
     clock := clock w + d; faults := faults w; trace := trace w |}.

Definition with_faults (fs : list (option string)) (w : World) : World :=
  {| tasks := tasks w; tasks_id_seq := tasks_id_seq w; redis := redis w;
     clock := clock w; faults := fs; trace := trace w |}.

(** The fault the next call meets in world [w], if any. *)
Definition meets (w : World) : option string :=
  match faults w with
  | Some m :: _ => Some m
  | _ => None
  end.

(** ** Awaiting a promise: results and rejections *)

Inductive outcome (A : Type) :=
| Ret (a : A)
| Throw (message : string).
Arguments Ret {A} a.
Arguments Throw {A} message.

Definition M (A : Type) : Type := World -> outcome A * World.

Definition ret {A} (a : A) : M A := fun w => (Ret a, w).
Definition throw {A} (message : string) : M A := fun w => (Throw message, w).

Definition bind {A B} (c : M A) (k : A -> M B) : M B :=
  fun w =>
    match c w with
    | (Ret a, w') => k a w'
    | (Throw m, w') => (Throw m, w')
    end.

(** [x ← c; k] reads [const x = await c; k], and [c;; k] reads [await c; k]. *)
#[global] Instance M_ret : MRet M := @ret.
#[global] Instance M_bind : MBind M := fun A B k c => bind c k.

(** A call to a collaborator, when it settles: it meets the pending
    rejection, if there is one, and runs otherwise.  A call that does not
    settle, and the end of the process, are events of the Node process
    (below), not outcomes of a call. *)
Definition external {A} (c : Call) (run : M A) : M A :=
  fun w =>
    match meets w with
    | Some m => (Throw m, called c w)
    | None => run (called c w)
    end.

(** ** PostgreSQL: [pool.query] *)

Module pool.

(** [pool.query('SELECT * FROM tasks ORDER BY created_at DESC')]: its
    [result.rows]. *)
Definition query_select (ex : Executor) : M (list Row) :=
  external PgSelect (fun w => (Ret (order_by_created_at_desc ex (tasks w)), w)).

(** [INSERT INTO tasks (title, description) VALUES ($1, $2) RETURNING *],
    once it has reached the server.  The server refuses, in this order:
    a parameter that holds U+0000, when the parameters are bound; a title
    that does not fit VARCHAR(255), when the statement is planned on them;
    then, as the row is built, [nextval] on the exhausted sequence; and, on
    the row so built, NOT NULL on [title].  Only the last of these has drawn
    an id, which is then lost (a sequence is not rolled back).  Otherwise
    the defaults fill [id], [completed] and the two timestamps. *)
Definition inserted (title description : option string) : M Row :=
  fun w =>
    if has_nul title || has_nul description then (Throw invalid_byte_sequence, w)
    else
      match title with
      | Some t =>
          match varchar_255 t with
          | None => (Throw value_too_long, w)
          | Some t' =>
              if int4_max <=? tasks_id_seq w then (Throw sequence_exhausted, w)
              else
                let next := tasks_id_seq w + 1 in
                let row := {| id := next; title := t'; description := description;
                              completed := false; created_at := clock w;
                              updated_at := clock w |} in
                (Ret row, set_table (tasks w ++ [row]) next w)
          end
      | None =>
          if int4_max <=? tasks_id_seq w then (Throw sequence_exhausted, w)
          else (Throw not_null_violation, set_table (tasks w) (tasks_id_seq w + 1) w)
      end.

(** [pool.query('INSERT ... RETURNING *', [title, description])]: its
    [result.rows[0]]. *)
Definition query_insert (title description : option string) : M Row :=
  external (PgInsert title description) (inserted title description).

End pool.

(** ** Redis: [redisClient] *)

(** The value under [key] at instant [now]: a key is gone once the clock
    has passed its expiry. *)
Definition redis_lookup (store : gmap string (string * Z)) (now : Z) (key : string)
  : option string :=
  match store !! key with
  | Some (v, expiry) => if now <=? expiry then Some v else None
  | None => None
  end.

Module redisClient.

Definition get (key : string) : M (option string) :=
  external (RedisGet key) (fun w => (Ret (redis_lookup (redis w) (clock w) key), w)).

Definition setEx (key : string) (seconds : Z) (val : string) : M unit :=
  external (RedisSetEx key seconds val) (fun w =>
    (Ret tt, set_redis (<[key := (val, clock w + seconds * 1000)]> (redis w)) w)).

Definition del (key : string) : M unit :=
  external (RedisDel key) (fun w => (Ret tt, set_redis (delete key (redis w)) w)).

End redisClient.

(** ** The handlers of backend/server.js *)

Record Response := {
  status : Z;
  body : value          (* what [res.json] is given; it is sent as its JSON text *)
}.

(** [res.status(code).json(v)], and [res.json(v)] with the default status. *)
Definition res_status_json (code : Z) (v : value) : Response :=
  {| status := code; body := v |}.

Definition res_json (v : value) : Response := res_status_json 200 v.

(** [try { ... } catch (err) { res.status(500).json({ error: err.message }) }] *)
Definition try_catch (block : M Response) : World -> Response * World :=
  fun w =>
    match block w with
    | (Ret r, w') => (r, w')
    | (Throw m, w') => (res_status_json 500 (VObj [("error", VStr m)]), w')
    end.

(** [if (cached)]: [null] and the empty string are falsy. *)
Definition truthy (cached : option string) : option string :=
  match cached with
  | Some "" => None
  | other => other
  end.

(** [JSON.parse(cached)]: the SyntaxError of a text that is no JSON is
    thrown. *)
Definition parse_or_throw (s : string) : M value :=
  match JSON.parse s with
  | Some v => ret v
  | None => throw "Unexpected token in JSON"
  end.

(** [app.get('/health', ...)] *)
Definition get_health : World -> Response * World :=
  fun w => (res_json (VObj [("status", VStr "healthy"); ("timestamp", VDate (clock w))]), w).

Definition cacheKey : string := "tasks:all".

(** [app.get('/api/tasks', ...)] *)
Definition get_tasks (ex : Executor) : World -> Response * World :=
  try_catch (
    cached ← redisClient.get cacheKey;
    match truthy cached with
    | Some hit =>
        data ← parse_or_throw hit;
        ret (res_json (VObj [("source", VStr "cache"); ("data", data)]))
    | None =>
        rows ← pool.query_select ex;
        redisClient.setEx cacheKey 60 (JSON.stringify (rows_to_js rows));;
        ret (res_json (VObj [("source", VStr "database"); ("data", rows_to_js rows)]))
    end).

(** [app.post('/api/tasks', ...)], on the body [{ title, description }]. *)
Definition post_tasks (title description : option string) : World -> Response * World :=
  try_catch (
    row ← pool.query_insert title description;
    redisClient.del "tasks:all";;
    ret (res_status_json 201 (row_to_js row))).

(** ** The application as a transition system *)

Inductive Request :=
| GET_health
| GET_api_tasks
| POST_api_tasks (title description : option string).

Definition app (ex : Executor) (req : Request) : World -> Response * World :=
  match req with
  | GET_health => get_health
  | GET_api_tasks => get_tasks ex
  | POST_api_tasks title description => post_tasks title description
  end.

(** The table after [01-init.sql] has run at instant [now]: the four sample
    rows come from one INSERT statement, hence with one CURRENT_TIMESTAMP. *)
Definition sample (i : Z) (t : string) (d : string) (c : bool) (now : Z) : Row :=
  {| id := i; title := t; description := Some d; completed := c;
     created_at := now; updated_at := now |}.

Definition init_rows (now : Z) : list Row :=
  [ sample 1 "Learn Docker" "Understand containerization and Docker basics" true now;
    sample 2 "Learn Kubernetes" "Master pod, deployment, and service concepts" false now;
    sample 3 "Setup EKS Cluster" "Create production-ready EKS cluster on AWS" false now;
    sample 4 "Implement CI/CD" "Setup Jenkins pipeline for automated deployments" false now ].

Definition init_world (now : Z) : World :=
  {| tasks := init_rows now; tasks_id_seq := 4; redis := ∅; clock := now;
     faults := []; trace := [] |}.

(** A database with the table and no row yet. *)
Definition empty_world (now : Z) : World :=
  {| tasks := []; tasks_id_seq := 0; redis := ∅; clock := now; faults := []; trace := [] |}.

(** [UPDATE tasks SET <column> = <value> WHERE id = <i>] on a column other
    than [id] and [created_at], which the data model of the specification
    holds immutable: the updates of a client that keeps to that model.  The
    repository issues no UPDATE itself; the trigger of 01-init.sql is what
    such a statement goes through.  (The table itself would accept an UPDATE
    of [id] or [created_at]; no statement below is about such a client.) *)
Inductive Assignment :=
| SetTitle (t : string)
| SetDescription (d : option string)
| SetCompleted (c : bool)
| SetUpdatedAt (instant : Z).

Definition assign (a : Assignment) (r : Row) : option Row :=
  match a with
  | SetTitle t =>
      match varchar_255 t with
      | Some t' =>
          Some {| id := id r; title := t'; description := description r;
                  completed := completed r; created_at := created_at r;
                  updated_at := updated_at r |}
      | None => None
      end
  | SetDescription d =>
      Some {| id := id r; title := title r; description := d;
              completed := completed r; created_at := created_at r;
              updated_at := updated_at r |}
  | SetCompleted c =>
      Some {| id := id r; title := title r; description := description r;
              completed := c; created_at := created_at r;
              updated_at := updated_at r |}
  | SetUpdatedAt instant =>
      Some {| id := id r; title := title r; description := description r;
              completed := completed r; created_at := created_at r;
              updated_at := instant |}
  end.

(** The rows of the table after the statement; [None] when a row it
    touches is rejected (the statement then changes nothing). *)
Fixpoint update_rows (now : Z) (i : Z) (a : Assignment) (rows : list Row)
  : option (list Row) :=
  match rows with
  | [] => Some []
  | r :: rest =>
      match update_rows now i a rest with
      | None => None
      | Some rest' =>
          if id r =? i then
            match assign a r with
            | Some r' => Some (update_updated_at_column now r' :: rest')
            | None => None
            end
          else Some (r :: rest')
      end
  end.

Definition sql_update (i : Z) (a : Assignment) (w : World) : World :=
  match update_rows (clock w) i a (tasks w) with
  | Some rows => set_table rows (tasks_id_seq w) w
  | None => w
  end.

(** One event in the life of the system: a request is served, a client of
    the database updates a task, time passes, or the health of the
    collaborators changes. *)
Inductive step : World -> World -> Prop :=
| step_request (ex : Executor) (req : Request) (w : World) :
    step w (snd (app ex req w))
| step_update (i : Z) (a : Assignment) (w : World) :
    step w (sql_update i a w)
| step_tick (d : Z) (w : World) :
    0 <= d -> step w (tick d w)
| step_faults (fs : list (option string)) (w : World) :
    step w (with_faults fs w).

Inductive steps : World -> World -> Prop :=
| steps_refl (w : World) : steps w w
| steps_next (w1 w2 w3 : World) : steps w1 w2 -> step w2 w3 -> steps w1 w3.

(** The events that are no create and no update: other list and health
    requests, time passing, the collaborators failing or recovering. *)
Inductive quiet_step : World -> World -> Prop :=
| quiet_list (ex : Executor) (w : World) : quiet_step w (snd (get_tasks ex w))
| quiet_health (w : World) : quiet_step w (snd (get_health w))
| quiet_tick (d : Z) (w : World) : 0 <= d -> quiet_step w (tick d w)
| quiet_faults (fs : list (option string)) (w : World) : quiet_step w (with_faults fs w).

Inductive quiet : World -> World -> Prop :=
| quiet_refl (w : World) : quiet w w
| quiet_next (w1 w2 w3 : World) : quiet w1 w2 -> quiet_step w2 w3 -> quiet w1 w3.

(** Between two requests in which only time passes (and the health of the
    collaborators may change): no request, no update. *)
Definition later (w w' : World) : Prop :=
  tasks w' = tasks w /\ tasks_id_seq w' = tasks_id_seq w /\ redis w' = redis w /\
  clock w <= clock w'.

(** ** The vocabulary of the statements *)

(** The responses of the handlers. *)
Definition failure (m : string) : Response :=
  res_status_json 500 (VObj [("error", VStr m)]).

Definition from_cache (data : value) : Response :=
  res_json (VObj [("source", VStr "cache"); ("data", data)]).

Definition from_database (rows : list Row) : Response :=
  res_json (VObj [("source", VStr "database"); ("data", rows_to_js rows)]).

Definition created (row : Row) : Response := res_status_json 201 (row_to_js row).

(** No pending fault: the next calls to the collaborators succeed. *)
Definition calm (w : World) : Prop := Forall (fun f => f = None) (faults w).

(** The only writer of the cache key is [get_tasks]: what the key holds is
    the JSON text of a query result. *)
Definition cache_ok (w : World) : Prop :=
  forall text expiry,
    redis w !! cacheKey = Some (text, expiry) ->
    exists rows, text = JSON.stringify (rows_to_js rows) /\ Sorted created_desc rows.

(** The rows of the table: timestamps in order and not in the future, ids
    drawn from the sequence and all different. *)
Definition row_ok (now seq : Z) (r : Row) : Prop :=
  created_at r <= updated_at r /\ updated_at r <= now /\ 0 < id r <= seq.

Definition table_ok (w : World) : Prop :=
  0 <= tasks_id_seq w /\
  Forall (row_ok (clock w) (tasks_id_seq w)) (tasks w) /\
  NoDup (map id (tasks w)).

(** The worlds the system reaches: from a database that 01-init.sql has
    just set up, or from an empty table, with an empty cache. *)
Definition reachable (w : World) : Prop :=
  exists now, steps (init_world now) w \/ steps (empty_world now) w.

(** The hit path of a list call: what the cache holds is served, and
    nothing else is done. *)
Definition hit_path (text : string) (w : World) (res : Response) (w' : World) : Prop :=
  exists data,
    JSON.parse text = Some data /\
    JSON.stringify data = text /\
    res = from_cache data /\
    redis w' = redis w /\
    tasks w' = tasks w /\
    trace w' = trace w ++ [RedisGet cacheKey].

(** The miss path: the table is queried, the result is written to the cache
    for 60 seconds and served. *)
Definition miss_path (ex : Executor) (w : World) (res : Response) (w' : World) : Prop :=
  let rows := order_by_created_at_desc ex (tasks w) in
  let text := JSON.stringify (rows_to_js rows) in
  Permutation rows (tasks w) /\
  Sorted created_desc rows /\
  res = from_database rows /\
  redis w' = <[cacheKey := (text, clock w + 60 * 1000)]> (redis w) /\
  tasks w' = tasks w /\
  trace w' = trace w ++ [RedisGet cacheKey; PgSelect; RedisSetEx cacheKey 60 text].

(** Among rows of one instant, the smaller id comes first. *)
Definition id_asc_among_equal (a b : Row) : Prop :=
  created_at a = created_at b -> id a < id b.

Definition ties_by_id_asc (rows : list Row) : Prop :=
  ForallOrdPairs id_asc_among_equal rows.

(** What the reader of JSON is asked of one value: enough fuel for its
    text, and a text after it that does not go on with a digit. *)
Definition no_digit_head (rest : text) : Prop :=
  match rest with
  | c :: _ => is_digit c = false
  | [] => True
  end.

Definition reads_back (v : value) : Prop :=
  forall (fuel : nat) (rest : text),
    (length (JSON.serialize v) < fuel)%nat ->
    no_digit_head rest ->
    JSON.parse_value fuel (JSON.serialize v ++ rest) = Some (JSON.plain v, rest).

Definition member_text (kv : string * value) : text :=
  JSON.quote (fst kv) ++ ":"%char :: JSON.serialize (snd kv).

(** ** Two query plans

    Insertion sort on a total preorder given as a boolean test, and the
    proof that it meets the contract of [ORDER BY]. *)

Fixpoint insert_by (le : Row -> Row -> bool) (x : Row) (l : list Row) : list Row :=
  match l with
  | [] => [x]
  | y :: l' => if le x y then x :: l else y :: insert_by le x l'
  end.

Definition sort_by (le : Row -> Row -> bool) (l : list Row) : list Row :=
  foldr (insert_by le) [] l.

(** Latest first, and among rows of one instant the smaller id first. *)
Definition newest_then_id_asc (a b : Row) : bool :=
  (created_at b <? created_at a) || ((created_at b =? created_at a) && (id a <=? id b)).

(** Latest first, and among rows of one instant the larger id first. *)
Definition newest_then_id_desc (a b : Row) : bool :=
  (created_at b <? created_at a) || ((created_at b =? created_at a) && (id b <=? id a)).

Section InsertionSort.

Variable le : Row -> Row -> bool.
Hypothesis le_desc : forall a b, le a b = true -> created_desc a b.
Hypothesis le_total : forall a b, le a b = false -> created_desc b a.

Lemma insert_by_perm (x : Row) (l : list Row) :
  Permutation (insert_by le x l) (x :: l).
Proof.
  induction l as [ | y l IH ]; simpl.
  - reflexivity.
  - destruct (le x y); [ reflexivity | ].
    rewrite IH. apply perm_swap.
Qed.

Lemma sort_by_perm (l : list Row) : Permutation (sort_by le l) l.
Proof.
  induction l as [ | x l IH ]; simpl.
  - reflexivity.
  - rewrite insert_by_perm. now constructor.
Qed.

Lemma insert_by_hd (a x : Row) (l : list Row) :
  HdRel created_desc a l -> created_desc a x -> HdRel created_desc a (insert_by le x l).
Proof.
  intros Hl Hx. destruct l as [ | y l ]; simpl.
  - now constructor.
  - destruct (le x y); constructor; [ assumption | now inversion Hl ].
Qed.

Lemma insert_by_sorted (x : Row) (l : list Row) :
  Sorted created_desc l -> Sorted created_desc (insert_by le x l).
Proof.
  induction 1 as [ | y l Hsorted IH Hhd ]; simpl.
  - repeat constructor.
  - destruct (le x y) eqn:Hxy.
    + constructor; [ now constructor | constructor; now apply le_desc ].
    + constructor; [ exact IH | ]. apply insert_by_hd; [ exact Hhd | now apply le_total ].
Qed.

Lemma sort_by_sorted (l : list Row) : Sorted created_desc (sort_by le l).
Proof.
  induction l as [ | x l IH ]; simpl.
  - constructor.
  - now apply insert_by_sorted.
Qed.

End InsertionSort.

Lemma newest_then_id_asc_desc (a b : Row) :
  newest_then_id_asc a b = true -> created_desc a b.
Proof. unfold newest_then_id_asc, created_desc. lia. Qed.

Lemma newest_then_id_asc_total (a b : Row) :
  newest_then_id_asc a b = false -> created_desc b a.
Proof. unfold newest_then_id_asc, created_desc. lia. Qed.

Lemma newest_then_id_desc_desc (a b : Row) :
  newest_then_id_desc a b = true -> created_desc a b.
Proof. unfold newest_then_id_desc, created_desc. lia. Qed.

Lemma newest_then_id_desc_total (a b : Row) :
  newest_then_id_desc a b = false -> created_desc b a.
Proof. unfold newest_then_id_desc, created_desc. lia. Qed.

(** A plan that returns rows of one instant in the order of their ids. *)
Definition plan_id_asc : Executor :=
  {| order_by_created_at_desc := sort_by newest_then_id_asc;
     order_by_perm := sort_by_perm newest_then_id_asc;
     order_by_sorted :=
       sort_by_sorted _ newest_then_id_asc_desc newest_then_id_asc_total |}.

(** A plan that returns them in the reverse order. *)
Definition plan_id_desc : Executor :=
  {| order_by_created_at_desc := sort_by newest_then_id_desc;
     order_by_perm := sort_by_perm newest_then_id_desc;
     order_by_sorted :=
       sort_by_sorted _ newest_then_id_desc_desc newest_then_id_desc_total |}.

(** ** The worlds of the examples

    The scenario of the specification: the store is empty, task A is
    created at instant 1000 and listed twice, task B is created two seconds
    later. *)

Definition rowA : Row :=
  {| id := 1; title := "A"; description := Some "d1"; completed := false;
     created_at := 1000; updated_at := 1000 |}.

Definition rowB : Row :=
  {| id := 2; title := "B"; description := Some "d2"; completed := false;
     created_at := 3000; updated_at := 3000 |}.

Definition after_create_A : World :=
  snd (post_tasks (Some "A") (Some "d1") (empty_world 1000)).

Definition after_first_list : World := snd (get_tasks plan_id_asc after_create_A).

Definition after_create_B : World :=
  snd (post_tasks (Some "B") (Some "d2") (tick 2000 after_first_list)).

(** The sample rows of 01-init.sql, then a create, five seconds, and an
    update of task 2. *)
Definition busy_day : World :=
  sql_update 2 (SetCompleted true)
    (tick 5000
       (snd (app plan_id_asc (POST_api_tasks (Some "Write the report") None)
               (init_world 1000)))).

(** An error reply of Redis: what it answers to any command while it loads
    its data set. *)
Definition redis_loading : string := "LOADING Redis is loading the dataset in memory".

(** A title of [n] letters. *)
Definition letters (n : nat) : string := unstr (repeat "x"%char n).

Definition sample_value : value :=
  VArr [VObj [("id", VNum 12);
              ("title", VStr (unstr ["a"%char; chr 9; "b"%char; backslash; "c"%char]));
              ("done", VBool false); ("description", VNull);
              ("at", VDate 951782400000); ("n", VNum (-7))];
        VArr []; VObj []; VArr [VNum 0]].

(** ** The table and the cache over runs *)

(** The number of characters of a UTF-8 text. *)
Fixpoint char_length (s : text) : nat :=
  match s with
  | [] => O
  | c :: r => if is_continuation c then char_length r else S (char_length r)
  end.

Definition title_fits (r : Row) : Prop := (char_length (str (title r)) <= 255)%nat.

(** Row [a] is the older of the two: it has the smaller id, and it was not
    created after [b]. *)
Definition older (a b : Row) : Prop := id a < id b /\ created_at a <= created_at b.

(** The cache agrees with the table: what the key holds is the text of the
    rows the table holds now, in an order the query may return them. *)
Definition coherent (w : World) : Prop :=
  forall text expiry,
    redis w !! cacheKey = Some (text, expiry) ->
    exists rows,
      text = JSON.stringify (rows_to_js rows) /\
      Sorted created_desc rows /\
      Permutation rows (tasks w).

(** What the cache key holds expires within 60 seconds. *)
Definition short_lived (w : World) : Prop :=
  forall text expiry,
    redis w !! cacheKey = Some (text, expiry) -> expiry <= clock w + 60 * 1000.

(** The events in which the API is the only client of the database and
    serves its requests one at a time, each from its first call to its
    response: requests, time passing, the collaborators failing or
    recovering. *)
Inductive api_step : World -> World -> Prop :=
| api_request (ex : Executor) (req : Request) (w : World) :
    api_step w (snd (app ex req w))
| api_tick (d : Z) (w : World) : 0 <= d -> api_step w (tick d w)
| api_faults (fs : list (option string)) (w : World) : api_step w (with_faults fs w).

Inductive api_run : World -> World -> Prop :=
| api_refl (w : World) : api_run w w
| api_next (w1 w2 w3 : World) : api_run w1 w2 -> api_step w2 w3 -> api_run w1 w3.

(** Among them, those in which no create call has stored its row and then
    failed: each request has left the table as it was or has been answered
    201. *)
Inductive clean_step : World -> World -> Prop :=
| clean_request (ex : Executor) (req : Request) (w : World) :
    tasks (snd (app ex req w)) = tasks w \/ status (fst (app ex req w)) = 201 ->
    clean_step w (snd (app ex req w))
| clean_tick (d : Z) (w : World) : 0 <= d -> clean_step w (tick d w)
| clean_faults (fs : list (option string)) (w : World) : clean_step w (with_faults fs w).

Inductive clean_run : World -> World -> Prop :=
| clean_refl (w : World) : clean_run w w
| clean_next (w1 w2 w3 : World) : clean_run w1 w2 -> clean_step w2 w3 -> clean_run w1 w3.

(** ** The Node process

    A handler of server.js is suspended at each [await], from the moment
    it has sent its command until the command settles, and other handlers
    run in the meantime.  A command to Redis settles only while Redis can be
    reached; until then the handler stays suspended and its request has no
    answer.  [redisClient] and [pool] are event emitters on which server.js
    registers no ['error'] listener (lines 10-22): when one of them emits
    ['error'] (Redis has closed the socket, say), Node throws the error,
    nothing catches it and the process exits. *)

Inductive Suspended :=
| await_get                                          (* line 33 *)
| await_select                                       (* line 39 *)
| await_setEx (rows : list Row)                      (* line 40 *)
| await_insert (title description : option string)   (* line 51 *)
| await_del (row : Row).                             (* line 55 *)

Definition awaits_redis (h : Suspended) : bool :=
  match h with
  | await_get | await_setEx _ | await_del _ => true
  | await_select | await_insert _ _ => false
  end.

(** A handler from the arrival of its request to its first [await]. *)
Definition start (req : Request) (w : World) : Response + Suspended :=
  match req with
  | GET_health => inl (fst (get_health w))
  | GET_api_tasks => inr await_get
  | POST_api_tasks title description => inr (await_insert title description)
  end.

(** The awaited call has settled: the handler goes on with its result, or
    its [catch] block answers the rejection. *)
Definition settled {A} (r : outcome A * World) (k : A -> Response + Suspended)
  : (Response + Suspended) * World :=
  match r with
  | (Ret a, w') => (k a, w')
  | (Throw m, w') => (inl (failure m), w')
  end.

(** A suspended handler, from the settling of the call it awaits to its
    next [await] or to its response. *)
Definition resume (ex : Executor) (h : Suspended) (w : World)
  : (Response + Suspended) * World :=
  match h with
  | await_get =>
      settled (redisClient.get cacheKey w) (fun cached =>
        match truthy cached with
        | Some hit =>
            match JSON.parse hit with
            | Some data => inl (from_cache data)
            | None => inl (failure "Unexpected token in JSON")
            end
        | None => inr await_select
        end)
  | await_select =>
      settled (pool.query_select ex w) (fun rows => inr (await_setEx rows))
  | await_setEx rows =>
      settled (redisClient.setEx cacheKey 60 (JSON.stringify (rows_to_js rows)) w)
        (fun _ => inl (from_database rows))
  | await_insert title description =>
      settled (pool.query_insert title description w) (fun row => inr (await_del row))
  | await_del row =>
      settled (redisClient.del "tasks:all" w) (fun _ => inl (created row))
  end.

Inductive Emitter := the_redisClient | the_pool.

Record Process := {
  world : World;                       (* the two collaborators and the clock *)
  exited : option string;              (* the uncaught error the process has exited on *)
  redis_reachable : bool;
  suspended : gmap nat Suspended;      (* the handlers at an [await], by request *)
  responses : list (nat * Response);   (* the responses sent, oldest first *)
  accepted : nat                       (* the requests accepted so far *)
}.

(** The process once server.js has run, on the collaborators [w]. *)
Definition boot (w : World) : Process :=
  {| world := w; exited := None; redis_reachable := true; suspended := ∅;
     responses := []; accepted := 0 |}.

Inductive Event :=
| Arrives (req : Request)                 (* a request, its body read by [express.json()] *)
| Settles (n : nat) (ex : Executor)       (* the call request [n] awaits settles *)
| EmitsError (e : Emitter) (m : string)   (* an emitter emits ['error'] *)
| RedisReachable (b : bool)               (* Redis is lost, or found again *)
| Passes (d : Z)                          (* time *)
| Meets (fs : list (option string)).      (* the rejections the next calls meet *)

Definition on_world (f : World -> World) (p : Process) : Process :=
  {| world := f (world p); exited := exited p; redis_reachable := redis_reachable p;
     suspended := suspended p; responses := responses p; accepted := accepted p |}.

Definition handle (e : Event) (p : Process) : Process :=
  match exited p with
  | Some _ => p
  | None =>
      match e with
      | Arrives req =>
          match start req (world p) with
          | inl res =>
              {| world := world p; exited := None; redis_reachable := redis_reachable p;
                 suspended := suspended p;
                 responses := responses p ++ [(accepted p, res)];
                 accepted := S (accepted p) |}
          | inr h =>
              {| world := world p; exited := None; redis_reachable := redis_reachable p;
                 suspended := <[accepted p := h]> (suspended p);
                 responses := responses p;
                 accepted := S (accepted p) |}
          end
      | Settles n ex =>
          match suspended p !! n with
          | Some h =>
              if awaits_redis h && negb (redis_reachable p) then p
              else
                match resume ex h (world p) with
                | (inl res, w') =>
                    {| world := w'; exited := None; redis_reachable := redis_reachable p;
                       suspended := delete n (suspended p);
                       responses := responses p ++ [(n, res)];
                       accepted := accepted p |}
                | (inr h', w') =>
                    {| world := w'; exited := None; redis_reachable := redis_reachable p;
                       suspended := <[n := h']> (suspended p);
                       responses := responses p;
                       accepted := accepted p |}
                end
          | None => p
          end
      | EmitsError _ m =>
          {| world := world p; exited := Some m; redis_reachable := redis_reachable p;
             suspended := suspended p; responses := responses p; accepted := accepted p |}
      | RedisReachable b =>
          {| world := world p; exited := None; redis_reachable := b;
             suspended := suspended p; responses := responses p; accepted := accepted p |}
      | Passes d => on_world (tick (Z.max 0 d)) p
      | Meets fs => on_world (with_faults fs) p
      end
  end.

Definition run (events : list Event) (p : Process) : Process :=
  fold_left (fun q e => handle e q) events p.

(** Nothing is in flight, and nothing keeps a request from being served. *)
Definition idle (p : Process) : Prop :=
  exited p = None /\ redis_reachable p = true /\ suspended p = ∅.

(** One request served alone: it arrives, and each call it awaits settles
    before anything else happens (a handler awaits three calls at most). *)
Definition served_alone (ex : Executor) (req : Request) (p : Process) : Process :=
  let n := accepted p in
  run [Arrives req; Settles n ex; Settles n ex; Settles n ex] p.

(** Requests served one at a time. *)
Inductive Turn :=
| Serves (ex : Executor) (req : Request)
| Waits (d : Z)
| Shakes (fs : list (option string)).

Definition turn (t : Turn) (p : Process) : Process :=
  match t with
  | Serves ex req => served_alone ex req p
  | Waits d => handle (Passes d) p
  | Shakes fs => handle (Meets fs) p
  end.

Definition in_turn (ts : list Turn) (p : Process) : Process :=
  fold_left (fun q t => turn t q) ts p.

(** The turn from [p] to [p'] has left the table as it was, or has been
    answered 201: it is no create call that stored its row and failed. *)
Definition kept_or_created (p p' : Process) : Prop :=
  tasks (world p') = tasks (world p) \/
  exists n res, responses p' = responses p ++ [(n, res)] /\ status res = 201.

Fixpoint each_turn (P : Process -> Process -> Prop) (ts : list Turn) (p : Process) : Prop :=
  match ts with
  | [] => True
  | t :: ts' => P p (turn t p) /\ each_turn P ts' (turn t p)
  end.

(** The interleaving of a list call and a create call: the list call reads
    the table, the create call stores its row, deletes the cache key and is
    answered, and then the list call writes what it had read. *)
Definition interleaved (ex : Executor) (title description : option string) : list Event :=
  [Arrives GET_api_tasks; Settles 0 ex; Settles 0 ex;
   Arrives (POST_api_tasks title description); Settles 1 ex; Settles 1 ex;
   Settles 0 ex].

(** ** JavaScript on the values of the page *)

(** [object[key]]: a JSON text that names a member twice gives the last. *)
Fixpoint member (key : string) (members : list (string * value)) : option value :=
  match members with
  | [] => None
  | (k, v) :: rest =>
      match member key rest with
      | Some last => Some last
      | None => if String.eqb k key then Some v else None
      end
  end.

(** [v.key], for a key that is no built-in property of a string or an
    array: reading a property of [null] throws, an object gives its member,
    any other value [undefined] (here [None]). *)
Definition property (key : string) (v : value) : outcome (option value) :=
  match v with
  | VNull =>
      Throw (String.append "Cannot read properties of null (reading '"
               (String.append key "')"))
  | VObj members => Ret (member key members)
  | _ => Ret None
  end.

(** [Boolean(v)]. *)
Definition js_truthy (v : value) : bool :=
  match v with
  | VNull => false
  | VBool b => b
  | VNum n => negb (n =? 0)
  | VStr s => negb (String.eqb s "")
  | VDate _ | VArr _ | VObj _ => true
  end.

(** [x || fallback]. *)
Definition or_else (x : option value) (fallback : value) : value :=
  match x with
  | Some v => if js_truthy v then v else fallback
  | None => fallback
  end.

(** ** The body parser of backend/server.js

    [app.use(express.json())] (line 8): the middleware reads the body of a
    request before any handler runs, and refuses a body of more than 100kb
    with status 413 and the error page of Express; the handler then does
    not run. *)

Definition body_limit : N := 102400.

Inductive Reply :=
| answers (r : Response)     (* what the handler has passed to [res.json] *)
| payload_too_large.         (* 413 *)

Definition express_json (body : string) (next : World -> Response * World) (w : World)
  : Reply * World :=
  if (body_limit <? N.of_nat (String.length body))%N then (payload_too_large, w)
  else let '(r, w') := next w in (answers r, w').

(** ** The page of frontend/src/App.js

    The three pieces of state of [App], what the network does to the next
    requests of the page, and what the page has written with
    [console.error].  The page talks to the handlers of backend/server.js:
    a request that the network delivers is served, and its response comes
    back as the JSON text [res.json] sends. *)

Module App.

Record Page := {
  tasks : value;                       (* useState([]) *)
  title : string;                      (* useState('') *)
  description : string;                (* useState('') *)
  network : list (option string);      (* what the next fetches meet: [Some m] rejects with m *)
  console : list (string * string)     (* console.error(label, err), oldest first *)
}.

Definition setTasks (v : value) (p : Page) : Page :=
  {| tasks := v; title := title p; description := description p;
     network := network p; console := console p |}.

(** [onChange={(e) => setTitle(e.target.value)}], and [setTitle('')]. *)
Definition setTitle (s : string) (p : Page) : Page :=
  {| tasks := tasks p; title := s; description := description p;
     network := network p; console := console p |}.

Definition setDescription (s : string) (p : Page) : Page :=
  {| tasks := tasks p; title := title p; description := s;
     network := network p; console := console p |}.

Definition console_error (label message : string) (p : Page) : Page :=
  {| tasks := tasks p; title := title p; description := description p;
     network := network p; console := console p ++ [(label, message)] |}.

(** The page once a request has left it. *)
Definition sent (p : Page) : Page :=
  {| tasks := tasks p; title := title p; description := description p;
     network := tail (network p); console := console p |}.

(** The page when [App] is first rendered, on a network [net]. *)
Definition initial (net : list (option string)) : Page :=
  {| tasks := VArr []; title := ""; description := ""; network := net; console := [] |}.

(** What the next fetch of the page meets on the network, if anything. *)
Definition rejects (p : Page) : option string :=
  match network p with
  | Some m :: _ => Some m
  | _ => None
  end.


(** [await fetch(url, options)]: the request reaches the server and the
    response comes back whatever its status, or the fetch rejects and the
    server has not seen the request. *)
Definition fetch (ex : Executor) (req : Request) (body : string) (s : Page * World)
  : outcome Reply * (Page * World) :=
  let '(p, w) := s in
  match rejects p with
  | Some m => (Throw m, (sent p, w))
  | None => let '(reply, w') := express_json body (app ex req) w in (Ret reply, (sent p, w'))
  end.

(** [await response.json()]: on the text [res.json] has sent, or on an
    error page, which is no JSON. *)
Definition response_json (reply : Reply) : outcome value :=
  match reply with
  | answers response =>
      match JSON.parse (JSON.stringify (body response)) with
      | Some data => Ret data
      | None => Throw "Unexpected token in JSON"
      end
  | payload_too_large => Throw "Unexpected token in JSON"
  end.

(** [fetchTasks]: [setTasks(data.data || [])], and every error goes to the
    console. *)
Definition fetchTasks (ex : Executor) (s : Page * World) : Page * World :=
  match fetch ex GET_api_tasks "" s with
  | (Throw m, (p, w)) => (console_error "Error fetching tasks:" m p, w)
  | (Ret response, (p, w)) =>
      match response_json response with
      | Throw m => (console_error "Error fetching tasks:" m p, w)
      | Ret data =>
          match property "data" data with
          | Throw m => (console_error "Error fetching tasks:" m p, w)
          | Ret d => (setTasks (or_else d (VArr [])) p, w)
          end
      end
  end.

(** [useEffect(() => { fetchTasks(); }, [])]: the page after its first
    render. *)
Definition mounted (ex : Executor) (net : list (option string)) (w : World) : Page * World :=
  fetchTasks ex (initial net, w).

(** The body of the POST request: [JSON.stringify({ title, description })]. *)
Definition request_body (p : Page) : string :=
  JSON.stringify (VObj [("title", VStr (title p)); ("description", VStr (description p))]).

(** [createTask]: the POST carries the two fields of the form; once the
    fetch has resolved, whatever the status of the response, the form is
    emptied and the list is fetched again. *)
Definition createTask (ex : Executor) (s : Page * World) : Page * World :=
  match fetch ex (POST_api_tasks (Some (title (fst s))) (Some (description (fst s))))
          (request_body (fst s)) s with
  | (Throw m, (p, w)) => (console_error "Error creating task:" m p, w)
  | (Ret _, (p, w)) => fetchTasks ex (setDescription "" (setTitle "" p), w)
  end.

(** One card of the list: [key={task.id}], and the children of [<h3>] and
    [<p>]. *)
Record Card := {
  card_key : option value;
  card_title : option value;
  card_description : option value
}.

Definition card (task : value) : outcome Card :=
  match property "id" task with
  | Throw m => Throw m
  | Ret k =>
      match property "title" task with
      | Throw m => Throw m
      | Ret t =>
          match property "description" task with
          | Throw m => Throw m
          | Ret d => Ret {| card_key := k; card_title := t; card_description := d |}
          end
      end
  end.

Fixpoint cards (items : list value) : outcome (list Card) :=
  match items with
  | [] => Ret []
  | task :: rest =>
      match card task with
      | Throw m => Throw m
      | Ret c =>
          match cards rest with
          | Throw m => Throw m
          | Ret cs => Ret (c :: cs)
          end
      end
  end.

(** [tasks.map((task) => ...)]: only an array has [map]. *)
Definition render (p : Page) : outcome (list Card) :=
  match tasks p with
  | VArr items => cards items
  | VNull => Throw "Cannot read properties of null (reading 'map')"
  | _ => Throw "tasks.map is not a function"
  end.

End App.

(** The card of a row of the table. *)
Definition shown (r : Row) : App.Card :=
  {| App.card_key := Some (VNum (id r));
     App.card_title := Some (VStr (title r));
     App.card_description :=
       Some (match description r with Some d => VStr d | None => VNull end) |}.

(** * Part II: properties *)

(** ** The codec on examples *)

Example toISOString_epoch : toISOString 0 = "1970-01-01T00:00:00.000Z".
Proof. vm_compute. reflexivity. Qed.

Example toISOString_2023 : toISOString 1700000000123 = "2023-11-14T22:13:20.123Z".
Proof. vm_compute. reflexivity. Qed.

Example toISOString_before_epoch : toISOString (-1) = "1969-12-31T23:59:59.999Z".
Proof. vm_compute. reflexivity. Qed.

Example stringify_sample :
  JSON.stringify sample_value
  = unstr (str "[{" ++ JSON.quote "id" ++ str ":12," ++ JSON.quote "title" ++ str ":" ++
           dquote :: str "a\tb\\c" ++ dquote :: str "," ++ JSON.quote "done" ++ str ":false," ++
           JSON.quote "description" ++ str ":null," ++ JSON.quote "at" ++ str ":" ++
           JSON.quote "2000-02-29T00:00:00.000Z" ++ str "," ++ JSON.quote "n" ++ str ":-7},[],{},[0]]").
Proof. vm_compute. reflexivity. Qed.

Example parse_sample : JSON.parse (JSON.stringify sample_value) = Some (JSON.plain sample_value).
Proof. vm_compute. reflexivity. Qed.

Example parse_escape_u :
  JSON.parse (unstr (dquote :: backslash :: str "u00e9A" ++ [dquote]))
  = Some (VStr (unstr [chr 195; chr 169; "A"%char])).
Proof. vm_compute. reflexivity. Qed.

Example parse_garbage : JSON.parse "[1,]" = None.
Proof. vm_compute. reflexivity. Qed.

(** ** Texts and strings *)

Lemma str_unstr (l : text) : str (unstr l) = l.
Proof. apply list_ascii_of_string_of_list_ascii. Qed.

Lemma unstr_str (s : string) : unstr (str s) = s.
Proof. apply string_of_list_ascii_of_string. Qed.

Lemma length_str (s : string) : length (str s) = String.length s.
Proof. induction s as [ | c s IH ]; simpl; [ reflexivity | now rewrite IH ]. Qed.

(** ** Induction on values, with the hypotheses for the nested lists *)

Lemma value_ind' (P : value -> Prop)
  (Hnull : P VNull)
  (Hbool : forall b, P (VBool b))
  (Hnum : forall n, P (VNum n))
  (Hstr : forall s, P (VStr s))
  (Hdate : forall ms, P (VDate ms))
  (Harr : forall items, Forall P items -> P (VArr items))
  (Hobj : forall members, Forall (fun kv => P (snd kv)) members -> P (VObj members)) :
  forall v, P v.
Proof.
  fix IH 1. intros [ | b | n | s | ms | items | members ].
  - exact Hnull.
  - apply Hbool.
  - apply Hnum.
  - apply Hstr.
  - apply Hdate.
  - apply Harr. induction items as [ | v items IHitems ]; constructor.
    + apply IH.
    + exact IHitems.
  - apply Hobj. induction members as [ | [k v] members IHmembers ]; constructor.
    + apply IH.
    + exact IHmembers.
Qed.

(** ** Numbers: reading back the digits that were written *)

Lemma code_digit (d : N) : (d < 10)%N -> code (digit d) = (48 + d)%N.
Proof.
  intros Hd. unfold code, digit, chr. apply N_ascii_embedding. lia.
Qed.

Lemma is_digit_digit (d : N) : (d < 10)%N -> is_digit (digit d) = true.
Proof.
  intros Hd. unfold is_digit. rewrite code_digit by assumption.
  apply andb_true_iff. split; apply N.leb_le; lia.
Qed.

Lemma digit_val_digit (d : N) : (d < 10)%N -> digit_val (digit d) = d.
Proof. intros Hd. unfold digit_val. rewrite code_digit by assumption. lia. Qed.

Lemma mod_10_lt (n : N) : (n mod 10 < 10)%N.
Proof. apply N.mod_lt. discriminate. Qed.

Lemma digits_acc_app (fuel : nat) (n : N) (acc rest : text) :
  digits_acc fuel n (acc ++ rest) = digits_acc fuel n acc ++ rest.
Proof.
  revert n acc. induction fuel as [ | fuel IH ]; intros n acc; simpl.
  - reflexivity.
  - destruct (n <? 10)%N; [ reflexivity | ]. apply (IH _ (_ :: acc)).
Qed.

Lemma digits_acc_head (fuel : nat) (n : N) (c : ascii) (tl : text) :
  is_digit c = true ->
  exists d r, digits_acc fuel n (c :: tl) = d :: r /\ is_digit d = true.
Proof.
  revert n c tl. induction fuel as [ | fuel IH ]; intros n c tl Hc; simpl.
  - eauto.
  - destruct (n <? 10)%N.
    + eexists _, _. split; [ reflexivity | ]. apply is_digit_digit, mod_10_lt.
    + apply IH. apply is_digit_digit, mod_10_lt.
Qed.

Lemma digits_head (n : N) :
  exists d r, digits n = d :: r /\ is_digit d = true.
Proof.
  unfold digits. simpl. destruct (n <? 10)%N.
  - eexists _, _. split; [ reflexivity | ]. apply is_digit_digit, mod_10_lt.
  - apply digits_acc_head. apply is_digit_digit, mod_10_lt.
Qed.

Lemma size_nat_bound (n : N) : (n < 2 ^ N.of_nat (N.size_nat n))%N.
Proof.
  destruct n as [ | p ]; simpl; [ lia | ].
  induction p as [ p IH | p IH | ]; simpl Pos.size_nat;
    rewrite ?Nat2N.inj_succ, ?N.pow_succ_r'; simpl N.of_nat; lia.
Qed.

Lemma read_digits_acc (fuel : nat) :
  forall (n : N) (tl : text),
    (n < 2 ^ N.of_nat fuel)%N ->
    exists k : N, forall a : N,
      JSON.read_digits a (digits_acc fuel n tl) = JSON.read_digits (a * 10 ^ k + n) tl.
Proof.
  induction fuel as [ | fuel IH ]; intros n tl Hn.
  - exists 0%N. intros a. simpl in *. f_equal; lia.
  - simpl digits_acc. destruct (n <? 10)%N eqn:Hlt.
    + apply N.ltb_lt in Hlt. exists 1%N. intros a. simpl.
      rewrite is_digit_digit, digit_val_digit by apply mod_10_lt.
      rewrite N.mod_small by assumption. f_equal; lia.
    + apply N.ltb_ge in Hlt.
      destruct (IH (n / 10)%N (digit (n mod 10) :: tl)) as [k Hk].
      { rewrite Nat2N.inj_succ, N.pow_succ_r' in Hn.
        apply N.Div0.div_lt_upper_bound. lia. }
      exists (k + 1)%N. intros a. rewrite Hk. simpl.
      rewrite is_digit_digit, digit_val_digit by apply mod_10_lt.
      f_equal. rewrite N.pow_add_r, N.pow_1_r.
      pose proof (N.div_mod n 10). lia.
Qed.

Lemma read_digits_stop (a : N) (rest : text) :
  no_digit_head rest -> JSON.read_digits a rest = (a, rest).
Proof. destruct rest as [ | c r ]; simpl; [ reflexivity | intros -> ; reflexivity ]. Qed.

Lemma read_digits_digits (n : N) (rest : text) :
  no_digit_head rest -> JSON.read_digits 0 (digits n ++ rest) = (n, rest).
Proof.
  intros Hrest. unfold digits. rewrite <- digits_acc_app. simpl app.
  destruct (read_digits_acc (S (N.size_nat n)) n rest) as [k Hk].
  { pose proof (size_nat_bound n) as Hb.
    rewrite Nat2N.inj_succ, N.pow_succ_r'. lia. }
  rewrite Hk. simpl. now apply read_digits_stop.
Qed.

Lemma parse_number_text (z : Z) (rest : text) :
  no_digit_head rest -> JSON.parse_number (number_to_text z ++ rest) = Some (z, rest).
Proof.
  intros Hrest. unfold number_to_text. destruct (z <? 0) eqn:Hz.
  - apply Z.ltb_lt in Hz.
    destruct (digits_head (Z.to_N (- z))) as (d & r & Hd & Hdig).
    change (("-"%char :: digits (Z.to_N (- z))) ++ rest)
      with ("-"%char :: (digits (Z.to_N (- z)) ++ rest)).
    unfold JSON.parse_number.
    change (is_digit "-") with false. cbv iota.
    change (Ascii.eqb "-" "-") with true. cbv iota.
    rewrite (read_digits_digits (Z.to_N (- z)) rest Hrest).
    rewrite Hd. simpl. rewrite Hdig.
    f_equal. f_equal. lia.
  - apply Z.ltb_ge in Hz.
    destruct (digits_head (Z.to_N z)) as (d & r & Hd & Hdig).
    unfold JSON.parse_number.
    rewrite (read_digits_digits (Z.to_N z) rest Hrest).
    rewrite Hd. simpl. rewrite Hdig.
    f_equal. f_equal. lia.
Qed.

(** ** Strings: reading back a quoted string *)

Lemma parse_chars_escape (c : ascii) (tl : text) :
  JSON.parse_chars (JSON.escape_char c ++ tl)
  = match JSON.parse_chars tl with
    | Some (cs, rest) => Some (c :: cs, rest)
    | None => None
    end.
Proof.
  destruct c as [[|] [|] [|] [|] [|] [|] [|] [|]];
    simpl; destruct (JSON.parse_chars tl) as [[cs rest] | ]; reflexivity.
Qed.

Lemma parse_chars_escaped (cs rest : text) :
  JSON.parse_chars (flat_map JSON.escape_char cs ++ dquote :: rest) = Some (cs, rest).
Proof.
  induction cs as [ | c cs IH ].
  - reflexivity.
  - simpl flat_map. rewrite <- app_assoc, parse_chars_escape, IH. reflexivity.
Qed.

Lemma quote_app (s : string) (rest : text) :
  JSON.quote s ++ rest = dquote :: flat_map JSON.escape_char (str s) ++ dquote :: rest.
Proof. unfold JSON.quote. simpl. now rewrite <- app_assoc. Qed.

Lemma parse_string_quote (s : string) (rest : text) :
  JSON.parse_string (JSON.quote s ++ rest) = Some (s, rest).
Proof.
  rewrite quote_app. unfold JSON.parse_string.
  change (Ascii.eqb dquote dquote) with true. cbv iota.
  rewrite parse_chars_escaped, unstr_str. reflexivity.
Qed.

(** ** Values: [JSON.parse] reads back what [JSON.stringify] wrote *)

Lemma is_digit_not_close (c : ascii) :
  is_digit c = true -> Ascii.eqb c "]" = false.
Proof.
  intros Hc. destruct (Ascii.eqb_spec c "]") as [-> | ]; [ discriminate Hc | reflexivity ].
Qed.

Lemma number_to_text_head (z : Z) :
  exists c r, number_to_text z = c :: r /\
              (is_digit c || Ascii.eqb c "-") = true /\ Ascii.eqb c "]" = false.
Proof.
  unfold number_to_text. destruct (z <? 0).
  - eexists _, _. repeat split.
  - destruct (digits_head (Z.to_N z)) as (d & r & -> & Hd).
    exists d, r. rewrite Hd. repeat split. now apply is_digit_not_close.
Qed.

Lemma stringify_head (v : value) :
  exists c r, JSON.serialize v = c :: r /\ Ascii.eqb c "]" = false.
Proof.
  destruct v as [ | [ | ] | n | s | ms | items | members ]; simpl;
    try (eexists _, _; split; reflexivity).
  destruct (number_to_text_head n) as (c & r & -> & _ & Hc). eauto.
Qed.

Lemma parse_value_number (fuel : nat) (c : ascii) (r : text) :
  (is_digit c || Ascii.eqb c "-") = true ->
  JSON.parse_value (S fuel) (c :: r)
  = match JSON.parse_number (c :: r) with
    | Some (n, rest) => Some (VNum n, rest)
    | None => None
    end.
Proof. intros H. simpl JSON.parse_value. rewrite H. reflexivity. Qed.

Lemma parse_value_string (fuel : nat) (r : text) :
  JSON.parse_value (S fuel) (dquote :: r)
  = match JSON.parse_string (dquote :: r) with
    | Some (x, rest) => Some (VStr x, rest)
    | None => None
    end.
Proof. reflexivity. Qed.

Lemma parse_value_array (fuel : nat) (d : ascii) (r : text) :
  Ascii.eqb d "]" = false ->
  JSON.parse_value (S fuel) ("["%char :: d :: r)
  = match JSON.parse_elements fuel (d :: r) with
    | Some (items, rest) => Some (VArr items, rest)
    | None => None
    end.
Proof. intros H. simpl JSON.parse_value. rewrite H. reflexivity. Qed.

Lemma parse_value_object (fuel : nat) (r : text) :
  JSON.parse_value (S fuel) ("{"%char :: dquote :: r)
  = match JSON.parse_members fuel (dquote :: r) with
    | Some (members, rest) => Some (VObj members, rest)
    | None => None
    end.
Proof. reflexivity. Qed.

Lemma parse_elements_S (fuel : nat) (s : text) :
  JSON.parse_elements (S fuel) s
  = match JSON.parse_value fuel s with
    | Some (v, d :: r) =>
        if Ascii.eqb d "," then
          match JSON.parse_elements fuel r with
          | Some (vs, rest) => Some (v :: vs, rest)
          | None => None
          end
        else if Ascii.eqb d "]" then Some ([v], r)
        else None
    | _ => None
    end.
Proof. reflexivity. Qed.

Lemma parse_members_S (fuel : nat) (s : text) :
  JSON.parse_members (S fuel) s
  = match JSON.parse_string s with
    | Some (k, c :: r) =>
        if Ascii.eqb c ":" then
          match JSON.parse_value fuel r with
          | Some (v, d :: r') =>
              if Ascii.eqb d "," then
                match JSON.parse_members fuel r' with
                | Some (ms, rest) => Some ((k, v) :: ms, rest)
                | None => None
                end
              else if Ascii.eqb d "}" then Some ([(k, v)], r')
              else None
          | _ => None
          end
        else None
    | _ => None
    end.
Proof. reflexivity. Qed.

Lemma parse_elements_commas (items : list value) :
  Forall reads_back items ->
  items <> [] ->
  forall (fuel : nat) (rest : text),
    (length (JSON.commas (map JSON.serialize items)) + 1 < fuel)%nat ->
    JSON.parse_elements fuel (JSON.commas (map JSON.serialize items) ++ "]"%char :: rest)
    = Some (map JSON.plain items, rest).
Proof.
  induction 1 as [ | v items Hv Hitems IH ]; [ congruence | ].
  intros _ fuel rest Hfuel. destruct fuel as [ | fuel ]; [ lia | ].
  rewrite parse_elements_S. destruct items as [ | v' items ].
  - cbn [map JSON.commas] in *. rewrite Hv by (cbn; trivial; lia). reflexivity.
  - change (JSON.commas (map JSON.serialize (v :: v' :: items)))
      with (JSON.serialize v ++ ","%char :: JSON.commas (map JSON.serialize (v' :: items))) in *.
    rewrite length_app, length_cons in Hfuel.
    rewrite <- app_assoc, <- app_comm_cons.
    rewrite Hv by (cbn; trivial; lia).
    change (Ascii.eqb "," ",") with true. cbv iota.
    rewrite IH by (congruence || lia). reflexivity.
Qed.

Lemma parse_members_commas (members : list (string * value)) :
  Forall (fun kv => reads_back (snd kv)) members ->
  members <> [] ->
  forall (fuel : nat) (rest : text),
    (length (JSON.commas (map member_text members)) + 1 < fuel)%nat ->
    JSON.parse_members fuel (JSON.commas (map member_text members) ++ "}"%char :: rest)
    = Some (map (fun kv => (fst kv, JSON.plain (snd kv))) members, rest).
Proof.
  induction 1 as [ | [k v] members Hv Hmembers IH ]; [ congruence | ].
  intros _ fuel rest Hfuel. destruct fuel as [ | fuel ]; [ lia | ].
  rewrite parse_members_S. cbn [snd] in Hv. destruct members as [ | kv members ].
  - cbn [map JSON.commas] in *. unfold member_text in *. cbn [fst snd] in *.
    rewrite length_app, length_cons in Hfuel.
    rewrite <- app_assoc, parse_string_quote, <- app_comm_cons.
    change (Ascii.eqb ":" ":") with true. cbv iota.
    rewrite Hv by (cbn; trivial; lia). reflexivity.
  - change (JSON.commas (map member_text ((k, v) :: kv :: members)))
      with ((JSON.quote k ++ ":"%char :: JSON.serialize v) ++
            ","%char :: JSON.commas (map member_text (kv :: members))) in *.
    rewrite !length_app, !length_cons in Hfuel.
    rewrite <- !app_assoc, parse_string_quote, <- !app_comm_cons.
    change (Ascii.eqb ":" ":") with true. cbv iota.
    rewrite Hv by (cbn; trivial; lia).
    change (Ascii.eqb "," ",") with true. cbv iota.
    rewrite IH by (congruence || lia). reflexivity.
Qed.

Lemma stringify_reads_back (v : value) : reads_back v.
Proof.
  induction v as [ | b | n | s | ms | items IH | members IH ] using value_ind';
    intros fuel rest Hfuel Hrest; (destruct fuel as [ | fuel ]; [ lia | ]).
  - reflexivity.
  - destruct b; reflexivity.
  - cbn [JSON.serialize JSON.plain].
    destruct (number_to_text_head n) as (c & r & Hn & Hc & _).
    pose proof (parse_number_text n rest Hrest) as Hparse.
    rewrite Hn in *. rewrite <- app_comm_cons in *.
    rewrite parse_value_number, Hparse by assumption. reflexivity.
  - cbn [JSON.serialize JSON.plain]. pose proof (parse_string_quote s rest) as Hparse.
    rewrite quote_app in *. rewrite parse_value_string, Hparse. reflexivity.
  - cbn [JSON.serialize JSON.plain]. pose proof (parse_string_quote (toISOString ms) rest) as Hparse.
    rewrite quote_app in *. rewrite parse_value_string, Hparse. reflexivity.
  - destruct items as [ | v items ]; [ reflexivity | ].
    cbn [JSON.serialize JSON.plain] in *.
    rewrite length_cons, length_app, length_cons in Hfuel.
    rewrite <- app_comm_cons, <- app_assoc, <- app_comm_cons, app_nil_l.
    assert (Hhead : exists d r, JSON.commas (map JSON.serialize (v :: items)) = d :: r /\
                                Ascii.eqb d "]" = false).
    { destruct (stringify_head v) as (d & r & Hd & Hclose).
      destruct items; cbn [map JSON.commas]; rewrite Hd; eauto. }
    destruct Hhead as (d & r & Hd & Hclose).
    pose proof (parse_elements_commas (v :: items) IH ltac:(congruence) fuel rest) as Hparse.
    rewrite Hd in *. rewrite <- app_comm_cons in *.
    rewrite parse_value_array, Hparse by (assumption || (cbn [length] in *; lia)).
    reflexivity.
  - destruct members as [ | [k v] members ]; [ reflexivity | ].
    cbn [JSON.serialize JSON.plain] in *.
    change (map (fun kv => JSON.quote (fst kv) ++ ":"%char :: JSON.serialize (snd kv)))
      with (map member_text) in *.
    rewrite length_cons, length_app, length_cons in Hfuel.
    rewrite <- app_comm_cons, <- app_assoc, <- app_comm_cons, app_nil_l.
    assert (Hhead : exists r, JSON.commas (map member_text ((k, v) :: members)) = dquote :: r).
    { destruct members; cbn [map JSON.commas]; unfold member_text at 1, JSON.quote; eauto. }
    destruct Hhead as (r & Hd).
    pose proof (parse_members_commas ((k, v) :: members) IH ltac:(congruence) fuel rest)
      as Hparse.
    rewrite Hd in *. rewrite <- app_comm_cons in *.
    rewrite parse_value_object, Hparse by (cbn [length] in *; lia).
    reflexivity.
Qed.

(** Parsing the text of a value gives the value, Dates as their strings. *)
Theorem JSON_parse_stringify (v : value) :
  JSON.parse (JSON.stringify v) = Some (JSON.plain v).
Proof.
  unfold JSON.parse, JSON.stringify. rewrite <- length_str, str_unstr.
  pose proof (stringify_reads_back v (S (length (JSON.serialize v))) []) as H.
  rewrite app_nil_r in H. rewrite H by (simpl; trivial; lia). reflexivity.
Qed.

(** Writing a value again after it went through its text changes nothing:
    the text already had every Date as its string. *)
Lemma stringify_plain (v : value) : JSON.serialize (JSON.plain v) = JSON.serialize v.
Proof.
  induction v as [ | b | n | s | ms | items IH | members IH ] using value_ind';
    try reflexivity.
  - cbn [JSON.plain JSON.serialize]. f_equal. f_equal. f_equal.
    rewrite map_map. apply map_ext_Forall. exact IH.
  - cbn [JSON.plain JSON.serialize]. f_equal. f_equal. f_equal.
    rewrite map_map. apply map_ext_Forall.
    eapply Forall_impl; [ exact IH | ]. intros [k v] Hv. cbn [fst snd] in *. now rewrite Hv.
Qed.

Lemma JSON_stringify_plain (v : value) : JSON.stringify (JSON.plain v) = JSON.stringify v.
Proof. unfold JSON.stringify. now rewrite stringify_plain. Qed.

Lemma plain_idempotent (v : value) : JSON.plain (JSON.plain v) = JSON.plain v.
Proof.
  induction v as [ | b | n | s | ms | items IH | members IH ] using value_ind';
    try reflexivity.
  - cbn [JSON.plain]. f_equal. rewrite map_map. apply map_ext_Forall. exact IH.
  - cbn [JSON.plain]. f_equal. rewrite map_map. apply map_ext_Forall.
    eapply Forall_impl; [ exact IH | ]. intros [k v] Hv. cbn [fst snd] in *. now rewrite Hv.
Qed.

(** The text of a value is never empty: [if (cached)] sees a truthy string. *)
Lemma JSON_stringify_not_empty (v : value) : JSON.stringify v <> "".
Proof.
  unfold JSON.stringify. destruct (stringify_head v) as (c & r & -> & _). discriminate.
Qed.

(** ** The scenario of the specification, run on the model *)

Example scenario_create_A :
  fst (post_tasks (Some "A") (Some "d1") (empty_world 1000)) = created rowA.
Proof. vm_compute. reflexivity. Qed.

Example scenario_first_list :
  fst (get_tasks plan_id_asc after_create_A)
  = res_json (VObj [("source", VStr "database"); ("data", rows_to_js [rowA])]).
Proof. vm_compute. reflexivity. Qed.

Example scenario_second_list :
  fst (get_tasks plan_id_asc after_first_list)
  = res_json (VObj [("source", VStr "cache"); ("data", JSON.plain (rows_to_js [rowA]))]).
Proof. vm_compute. reflexivity. Qed.

Example scenario_list_after_B :
  fst (get_tasks plan_id_asc after_create_B)
  = res_json (VObj [("source", VStr "database"); ("data", rows_to_js [rowB; rowA])]).
Proof. vm_compute. reflexivity. Qed.

Example scenario_trace :
  trace after_create_B
  = [ PgInsert (Some "A") (Some "d1"); RedisDel "tasks:all";
      RedisGet "tasks:all"; PgSelect;
      RedisSetEx "tasks:all" 60 (JSON.stringify (rows_to_js [rowA]));
      PgInsert (Some "B") (Some "d2"); RedisDel "tasks:all" ].
Proof. vm_compute. reflexivity. Qed.

(** After 60 seconds the key has expired: the list comes from the table
    again. *)
Example scenario_expiry :
  fst (get_tasks plan_id_asc (tick 60000 after_first_list))
  = from_cache (JSON.plain (rows_to_js [rowA])) /\
  fst (get_tasks plan_id_asc (tick 60001 after_first_list)) = from_database [rowA].
Proof. vm_compute. split; reflexivity. Qed.

(** A rejected SETEX fails the list call, although the rows were read. *)
Example scenario_setEx_rejected :
  get_tasks plan_id_asc (with_faults [None; None; Some "READONLY"] after_create_A)
  = (failure "READONLY",
     called (RedisSetEx "tasks:all" 60 (JSON.stringify (rows_to_js [rowA])))
       (called PgSelect (called (RedisGet "tasks:all")
          (with_faults [None; None; Some "READONLY"] after_create_A)))).
Proof. vm_compute. reflexivity. Qed.

(** VARCHAR(255): 255 characters fit, a 256th does not, unless it is a
    space. *)
Example varchar_fits : varchar_255 (letters 255) = Some (letters 255).
Proof. vm_compute. reflexivity. Qed.

Example varchar_too_long : varchar_255 (letters 256) = None.
Proof. vm_compute. reflexivity. Qed.

Example varchar_trailing_space :
  varchar_255 (unstr (str (letters 255) ++ [" "%char])) = Some (letters 255).
Proof. vm_compute. reflexivity. Qed.

Example create_title_too_long :
  fst (post_tasks (Some (letters 256)) None (empty_world 1000)) = failure value_too_long.
Proof. vm_compute. reflexivity. Qed.

(** ** The handlers, path by path *)

(** [H] equates the response of a path with one it cannot be. *)
Ltac other_response H := injection H as <- _; discriminate.

(** Every path of [get_tasks]: the three calls, each of which may fail. *)
Lemma get_tasks_paths (ex : Executor) (w : World) :
  let w1 := called (RedisGet cacheKey) w in
  let rows := order_by_created_at_desc ex (tasks w) in
  let text := JSON.stringify (rows_to_js rows) in
  let w2 := called PgSelect w1 in
  let w3 := called (RedisSetEx cacheKey 60 text) w2 in
  get_tasks ex w
  = match meets w with
    | Some m => (failure m, w1)
    | None =>
        match truthy (redis_lookup (redis w) (clock w) cacheKey) with
        | Some hit =>
            match JSON.parse hit with
            | Some data => (from_cache data, w1)
            | None => (failure "Unexpected token in JSON", w1)
            end
        | None =>
            match meets w1 with
            | Some m => (failure m, w2)
            | None =>
                match meets w2 with
                | Some m => (failure m, w3)
                | None =>
                    (from_database rows,
                     set_redis (<[cacheKey := (text, clock w + 60 * 1000)]> (redis w)) w3)
                end
            end
        end
    end.
Proof.
  intros w1 rows text w2 w3.
  unfold get_tasks, try_catch, mbind, M_bind, bind, redisClient.get.
  unfold external. fold w1. destruct (meets w) as [m | ]; [ reflexivity | ].
  change (redis w1) with (redis w). change (clock w1) with (clock w).
  destruct (truthy (redis_lookup (redis w) (clock w) cacheKey)) as [hit | ].
  - unfold parse_or_throw. destruct (JSON.parse hit); reflexivity.
  - unfold pool.query_select. unfold external. fold w2.
    destruct (meets w1) as [m | ]; [ reflexivity | ].
    change (tasks w2) with (tasks w). fold rows. fold text.
    unfold redisClient.setEx. unfold external. fold w3.
    destruct (meets w2) as [m | ]; reflexivity.
Qed.

Lemma insert_task_run (title description : option string) (w : World) :
  pool.query_insert title description w
  = match meets w with
    | Some m => (Throw m, called (PgInsert title description) w)
    | None => pool.inserted title description (called (PgInsert title description) w)
    end.
Proof. unfold pool.query_insert. unfold external. reflexivity. Qed.

(** Every path of [post_tasks]: the INSERT, then the DEL. *)
Lemma post_tasks_paths (title description : option string) (w : World) :
  post_tasks title description w
  = match pool.query_insert title description w with
    | (Throw m, w1) => (failure m, w1)
    | (Ret row, w1) =>
        match redisClient.del cacheKey w1 with
        | (Throw m, w2) => (failure m, w2)
        | (Ret _, w2) => (created row, w2)
        end
    end.
Proof.
  unfold post_tasks, try_catch, mbind, M_bind, bind.
  change (redisClient.del "tasks:all") with (redisClient.del cacheKey).
  destruct (pool.query_insert title description w) as [[row | m] w1]; [ | reflexivity ].
  destruct (redisClient.del cacheKey w1) as [[[] | m] w2]; reflexivity.
Qed.

Lemma redisClient_del_run (key : string) (w : World) :
  redisClient.del key w
  = match meets w with
    | Some m => (Throw m, called (RedisDel key) w)
    | None => (Ret tt, set_redis (delete key (redis w)) (called (RedisDel key) w))
    end.
Proof. unfold redisClient.del. unfold external. reflexivity. Qed.

(** What an INSERT that reached the server leaves of the world. *)
Lemma inserted_frame (t d : option string) (w : World) :
  let '(o, w') := pool.inserted t d w in
  redis w' = redis w /\ clock w' = clock w /\ faults w' = faults w /\
  trace w' = trace w /\ tasks_id_seq w <= tasks_id_seq w' <= tasks_id_seq w + 1 /\
  match o with
  | Ret row =>
      tasks w' = tasks w ++ [row] /\ id row = tasks_id_seq w + 1 /\
      created_at row = clock w /\ updated_at row = clock w /\
      completed row = false /\ description row = d /\
      tasks_id_seq w' = tasks_id_seq w + 1
  | Throw _ => tasks w' = tasks w
  end.
Proof.
  unfold pool.inserted. destruct (has_nul t || has_nul d); [ cbn; repeat split; lia | ].
  destruct t as [t | ]; [ destruct (varchar_255 t); [ | cbn; repeat split; lia ] | ];
    destruct (int4_max <=? tasks_id_seq w); cbn; repeat split; lia.
Qed.

(** ** GET /health *)




(** ** POST /api/tasks: the failure paths *)

(** C5: when the INSERT of a create call fails (the call is rejected, or a
    constraint refuses the row), the caller gets a 500 response carrying the
    error's message, the cache and the table are as before, and the INSERT
    is the only call the handler made: no DEL, no second attempt. *)
Theorem create_store_failure (t d : option string) (w w1 : World) (m : string) :
  pool.query_insert t d w = (Throw m, w1) ->
  post_tasks t d w = (failure m, w1) /\
  redis w1 = redis w /\
  tasks w1 = tasks w /\
  trace w1 = trace w ++ [PgInsert t d].
Proof.
  intros Hinsert. rewrite post_tasks_paths, Hinsert. split; [ reflexivity | ].
  rewrite insert_task_run in Hinsert. destruct (meets w) as [m' | ].
  - injection Hinsert as _ <-. repeat split.
  - pose proof (inserted_frame t d (called (PgInsert t d) w)) as Hframe.
    rewrite Hinsert in Hframe. destruct Hframe as (Hredis & _ & _ & Htrace & _ & Htasks).
    repeat split; assumption.
Qed.

Lemma create_store_failure_witness :
  let w := with_faults [Some "connect ECONNREFUSED"] (init_world 1000) in
  post_tasks (Some "A") (Some "d1") w
  = (failure "connect ECONNREFUSED", called (PgInsert (Some "A") (Some "d1")) w) /\
  redis (called (PgInsert (Some "A") (Some "d1")) w) = redis w /\
  tasks (called (PgInsert (Some "A") (Some "d1")) w) = tasks w /\
  trace (called (PgInsert (Some "A") (Some "d1")) w) = trace w ++ [PgInsert (Some "A") (Some "d1")].
Proof.
  exact (create_store_failure (Some "A") (Some "d1")
           (with_faults [Some "connect ECONNREFUSED"] (init_world 1000)) _ _ eq_refl).
Defined.

(** C6, as the code has it: when the INSERT of a create call succeeds and
    the DEL of the cache key is then rejected (Redis answers the command
    with an error reply, and the promise the handler awaits rejects with
    it), the caller gets a 500 response carrying the DEL's error message,
    not the created task; the row stays in the table (nothing is rolled
    back) and the cache is as before.  A DEL that does not settle, and a
    socket that Redis closes, are no rejections: the caller then has no
    answer at all (see [create_unanswered_while_redis_is_lost] and the end
    of the process on an ['error'] event). *)
Theorem create_delete_failure (t d : option string) (w w1 w2 : World) (row : Row) (m : string) :
  pool.query_insert t d w = (Ret row, w1) ->
  redisClient.del cacheKey w1 = (Throw m, w2) ->
  post_tasks t d w = (failure m, w2) /\
  tasks w2 = tasks w ++ [row] /\
  redis w2 = redis w /\
  trace w2 = trace w ++ [PgInsert t d; RedisDel cacheKey].
Proof.
  intros Hinsert Hdel. rewrite post_tasks_paths, Hinsert, Hdel. split; [ reflexivity | ].
  rewrite insert_task_run in Hinsert. destruct (meets w) as [m' | ]; [ discriminate | ].
  pose proof (inserted_frame t d (called (PgInsert t d) w)) as Hframe.
  rewrite Hinsert in Hframe.
  destruct Hframe as (Hredis & _ & _ & Htrace & _ & Htasks & _).
  rewrite redisClient_del_run in Hdel. destruct (meets w1) as [m' | ]; [ | discriminate ].
  injection Hdel as _ <-. cbn. rewrite Htasks, Hredis, Htrace. cbn.
  rewrite <- app_assoc. repeat split.
Qed.

Lemma create_delete_failure_witness :
  let w := with_faults [None; Some redis_loading] (empty_world 1000) in
  exists w2 : World,
    post_tasks (Some "A") (Some "d1") w = (failure redis_loading, w2) /\
    tasks w2 = tasks w ++ [rowA] /\
    redis w2 = redis w /\
    trace w2 = trace w ++ [PgInsert (Some "A") (Some "d1"); RedisDel cacheKey].
Proof.
  eexists.
  exact (create_delete_failure (Some "A") (Some "d1")
           (with_faults [None; Some redis_loading] (empty_world 1000))
           _ _ rowA redis_loading eq_refl eq_refl).
Defined.

(** C6, as the claim states it, fails: the INSERT succeeds, Redis answers
    the DEL with an error reply, and the caller is answered 500 with the
    error, not 201 with the task. *)
Lemma create_delete_failure_not_created :
  let w := with_faults [None; Some redis_loading] (empty_world 1000) in
  fst (pool.query_insert (Some "A") (Some "d1") w) = Ret rowA /\
  fst (redisClient.del cacheKey (snd (pool.query_insert (Some "A") (Some "d1") w)))
  = Throw redis_loading /\
  fst (post_tasks (Some "A") (Some "d1") w) = failure redis_loading /\
  status (fst (post_tasks (Some "A") (Some "d1") w)) = 500 /\
  fst (post_tasks (Some "A") (Some "d1") w) <> created rowA /\
  tasks (snd (post_tasks (Some "A") (Some "d1") w)) = [rowA].
Proof. vm_compute. repeat split; discriminate. Qed.

(** C2, as the code has it: a create call whose title is missing fails,
    and not before the INSERT is sent: the caller gets a 500 response with
    the error's message, no row is inserted, the cache is not read, written
    or deleted, and the INSERT is the only call made.  When the INSERT
    reaches the database, the error is that of the table's NOT NULL
    constraint, unless PostgreSQL has refused the statement before it comes
    to the constraint: for a description that holds U+0000, or for the end
    of the id sequence.  (An empty title is not missing: see the
    counterexample.) *)
Theorem create_missing_title (d : option string) (w : World) :
  let '(res, w') := post_tasks None d w in
  (exists m, res = failure m) /\
  (meets w = None ->
   res = failure (if has_nul d then invalid_byte_sequence
                  else if int4_max <=? tasks_id_seq w then sequence_exhausted
                  else not_null_violation)) /\
  tasks w' = tasks w /\
  redis w' = redis w /\
  trace w' = trace w ++ [PgInsert None d].
Proof.
  rewrite post_tasks_paths, insert_task_run. destruct (meets w) as [m | ].
  - cbn. repeat split; [ eauto | discriminate ].
  - unfold pool.inserted. cbn [has_nul orb].
    destruct (has_nul d); [ cbn; repeat split; eauto | ].
    cbn [called tasks_id_seq].
    destruct (int4_max <=? tasks_id_seq w); cbn; repeat split; eauto.
Qed.

(** C2, as the claim states it, fails on the empty title: no validation
    stands before the INSERT, the table accepts the empty string, the row is
    inserted, the cache key is deleted and the caller is answered 201. *)
Lemma create_empty_title_accepted :
  let blank := {| id := 1; title := ""; description := None; completed := false;
                  created_at := 1000; updated_at := 1000 |} in
  let '(res, w') := post_tasks (Some "") None (empty_world 1000) in
  res = created blank /\
  status res = 201 /\
  tasks w' = [blank] /\
  trace w' = [PgInsert (Some "") None; RedisDel "tasks:all"].
Proof. vm_compute. repeat split. Qed.

(** ** GET /api/tasks: the hit path *)

(** C9: a list call that hits the cache (the GET answers with a value that
    [if (cached)] takes) makes no query to the table and writes nothing: the
    world after the handler is the world after the GET, whose cache (value
    and expiry of every key) and table are those before the call; the GET is
    the only call made. *)
Theorem list_hit_frame (ex : Executor) (w w1 : World) (cached : option string) (hit : string) :
  redisClient.get cacheKey w = (Ret cached, w1) ->
  truthy cached = Some hit ->
  snd (get_tasks ex w) = w1 /\
  redis w1 = redis w /\
  tasks w1 = tasks w /\
  trace w1 = trace w ++ [RedisGet cacheKey].
Proof.
  intros Hget Hhit. unfold redisClient.get in Hget. unfold external in Hget.
  rewrite get_tasks_paths. destruct (meets w) as [m | ]; [ discriminate | ].
  injection Hget as <- <-.
  change (redis (called (RedisGet cacheKey) w)) with (redis w) in Hhit.
  change (clock (called (RedisGet cacheKey) w)) with (clock w) in Hhit.
  rewrite Hhit. destruct (JSON.parse hit); repeat split.
Qed.

Lemma list_hit_frame_witness :
  snd (get_tasks plan_id_asc after_first_list) = called (RedisGet cacheKey) after_first_list /\
  redis (called (RedisGet cacheKey) after_first_list) = redis after_first_list /\
  tasks (called (RedisGet cacheKey) after_first_list) = tasks after_first_list /\
  trace (called (RedisGet cacheKey) after_first_list)
  = trace after_first_list ++ [RedisGet cacheKey].
Proof.
  exact (list_hit_frame plan_id_asc after_first_list _
           (Some (JSON.stringify (rows_to_js [rowA])))
           (JSON.stringify (rows_to_js [rowA])) eq_refl eq_refl).
Defined.

(** ** Calm worlds: no fault is pending *)

Lemma calm_meets (w : World) : calm w -> meets w = None.
Proof.
  unfold calm, meets. destruct (faults w) as [ | [m | ] fs ]; try reflexivity.
  intros H. inversion H; discriminate.
Qed.

Lemma calm_called (c : Call) (w : World) : calm w -> calm (called c w).
Proof.
  unfold calm. cbn. destruct (faults w) as [ | f fs ]; cbn; [ trivial | ].
  intros H. now inversion H.
Qed.

Lemma perm_In (rows rows' : list Row) (r : Row) :
  Permutation rows' rows -> In r rows -> In r rows'.
Proof. intros Hperm Hin. eapply Permutation_in; [ symmetry; exact Hperm | exact Hin ]. Qed.

(** ** POST /api/tasks, then GET /api/tasks *)

(** What a create call that answered 201 has done. *)
Lemma post_tasks_created (t d : option string) (w w' : World) (res : Response) :
  post_tasks t d w = (res, w') ->
  status res = 201 ->
  exists row,
    res = created row /\
    tasks w' = tasks w ++ [row] /\
    redis w' = delete cacheKey (redis w) /\
    clock w' = clock w /\
    id row = tasks_id_seq w + 1 /\
    tasks_id_seq w' = id row /\
    created_at row = clock w /\
    updated_at row = clock w /\
    trace w' = trace w ++ [PgInsert t d; RedisDel cacheKey].
Proof.
  intros Hpost H201. rewrite post_tasks_paths, insert_task_run in Hpost.
  destruct (meets w) as [m | ]; [ other_response Hpost | ].
  pose proof (inserted_frame t d (called (PgInsert t d) w)) as Hframe.
  destruct (pool.inserted t d (called (PgInsert t d) w)) as [[row | m] w1];
    [ | other_response Hpost ].
  destruct Hframe as (Hredis & Hclock & _ & Htrace & _ & Htasks & Hid & Hc & Hu & _ & _ & Hseq).
  rewrite redisClient_del_run in Hpost.
  destruct (meets w1) as [m | ]; [ other_response Hpost | ].
  injection Hpost as <- <-. exists row. cbn in *.
  rewrite Htasks, Hredis, Hclock, Hid, Hseq, Hc, Hu, Htrace, <- app_assoc. repeat split.
Qed.

(** C1, as the code has it: a create call that succeeds (the INSERT and the
    DEL both succeed, the caller is answered 201 with the task) has deleted
    the cache key when it returns, leaving the new row in the table; the
    next list call, however much later, takes the miss path: it answers
    either 500 (one of its own calls failed) or, from the database, a
    sequence that contains the created task, and the latter whenever its
    calls meet no fault. *)
Theorem create_then_list (t d : option string) (w w' : World) (res : Response) :
  post_tasks t d w = (res, w') ->
  status res = 201 ->
  exists row,
    body res = row_to_js row /\
    In row (tasks w') /\
    redis w' !! cacheKey = None /\
    forall (ex : Executor) (w'' : World),
      later w' w'' ->
      let res2 := fst (get_tasks ex w'') in
      ((exists m, res2 = failure m) \/
       (exists rows, res2 = from_database rows /\ In row rows)) /\
      (calm w'' -> exists rows, res2 = from_database rows /\ In row rows).
Proof.
  intros Hpost H201.
  destruct (post_tasks_created t d w w' res Hpost H201)
    as (row & -> & Htasks & Hredis & _).
  exists row. split; [ reflexivity | ]. split; [ rewrite Htasks; apply in_or_app; cbn; auto | ].
  split; [ rewrite Hredis; apply lookup_delete_eq | ].
  intros ex w'' (Htasks'' & _ & Hredis'' & _) res2.
  assert (Hin : In row (order_by_created_at_desc ex (tasks w''))).
  { apply (perm_In (tasks w'')); [ apply order_by_perm | ].
    rewrite Htasks'', Htasks. apply in_or_app; cbn; auto. }
  subst res2. rewrite get_tasks_paths.
  assert (Hmiss : redis_lookup (redis w'') (clock w'') cacheKey = None).
  { unfold redis_lookup. now rewrite Hredis'', Hredis, lookup_delete_eq. }
  rewrite Hmiss. cbn [truthy]. split.
  - destruct (meets w'') as [m | ]; [ left; eauto | ].
    destruct (meets (called (RedisGet cacheKey) w'')) as [m | ]; [ left; eauto | ].
    destruct (meets (called PgSelect (called (RedisGet cacheKey) w''))) as [m | ];
      [ left; eauto | ].
    right. eauto.
  - intros Hcalm.
    rewrite !calm_meets by (repeat apply calm_called; exact Hcalm).
    eauto.
Qed.

Lemma create_then_list_witness :
  exists row,
    body (fst (post_tasks (Some "B") (Some "d2") (tick 2000 after_first_list))) = row_to_js row /\
    In row (tasks after_create_B) /\
    redis after_create_B !! cacheKey = None /\
    forall (ex : Executor) (w'' : World),
      later after_create_B w'' ->
      let res2 := fst (get_tasks ex w'') in
      ((exists m, res2 = failure m) \/
       (exists rows, res2 = from_database rows /\ In row rows)) /\
      (calm w'' -> exists rows, res2 = from_database rows /\ In row rows).
Proof.
  exact (create_then_list (Some "B") (Some "d2") (tick 2000 after_first_list)
           after_create_B _ eq_refl eq_refl).
Defined.

(** C1, as the claim states it, fails when the DEL fails: the INSERT of the
    create call succeeds (the row is in the table), the DEL is rejected, the
    cache key is still there when the call returns, and the next list call
    is served from it: a list without the created task. *)
Lemma create_with_failed_delete_leaves_stale_list :
  let w := with_faults [None; Some redis_loading] (tick 2000 after_first_list) in
  let w' := snd (post_tasks (Some "B") (Some "d2") w) in
  fst (pool.query_insert (Some "B") (Some "d2") w) = Ret rowB /\
  fst (post_tasks (Some "B") (Some "d2") w) = failure redis_loading /\
  tasks w' = [rowA; rowB] /\
  redis w' !! cacheKey = Some (JSON.stringify (rows_to_js [rowA]), 61000) /\
  fst (get_tasks plan_id_asc w') = from_cache (JSON.plain (rows_to_js [rowA])).
Proof. vm_compute. repeat split. Qed.

(** ** GET /api/tasks: hit and miss *)

Lemma truthy_text (s : string) : s <> "" -> truthy (Some s) = Some s.
Proof. destruct s; [ congruence | reflexivity ]. Qed.

Lemma redis_lookup_live (store : gmap string (string * Z)) (now : Z) (key text : string)
    (expiry : Z) :
  store !! key = Some (text, expiry) -> now <= expiry ->
  redis_lookup store now key = Some text.
Proof.
  intros Hkey Hlive. unfold redis_lookup. rewrite Hkey.
  destruct (Z.leb_spec now expiry); [ reflexivity | lia ].
Qed.

Lemma redis_lookup_gone (store : gmap string (string * Z)) (now : Z) (key : string) :
  store !! key = None \/
  (exists text expiry, store !! key = Some (text, expiry) /\ expiry < now) ->
  redis_lookup store now key = None.
Proof.
  unfold redis_lookup. intros [-> | (text & expiry & -> & Hgone)]; [ reflexivity | ].
  destruct (Z.leb_spec now expiry); [ lia | reflexivity ].
Qed.

Lemma truthy_inv (cached : option string) (hit : string) :
  truthy cached = Some hit -> cached = Some hit /\ hit <> "".
Proof.
  destruct cached as [[ | c s] | ]; cbn; [ discriminate | | discriminate ].
  intros [= <-]. split; [ reflexivity | discriminate ].
Qed.

Lemma redis_lookup_inv (store : gmap string (string * Z)) (now : Z) (key text : string) :
  redis_lookup store now key = Some text ->
  exists expiry, store !! key = Some (text, expiry) /\ now <= expiry.
Proof.
  unfold redis_lookup. destruct (store !! key) as [[v expiry] | ]; [ | discriminate ].
  destruct (Z.leb_spec now expiry); [ | discriminate ].
  intros [= <-]. eauto.
Qed.

(** C3: a list call is answered 200 whenever its calls to the collaborators
    meet no fault, and 500 with the error otherwise.  When it is answered
    200: if the cache holds a value under ['tasks:all'] (not yet expired),
    the call has answered that cached sequence tagged ['cache'] without a
    query to the table; if the key is absent or expired, the call has
    queried the table ordered by [created_at] descending, written the result
    under the key with a 60-second expiry and answered it tagged
    ['database']. *)
Theorem list_hit_or_miss (ex : Executor) (w : World) :
  cache_ok w ->
  let '(res, w') := get_tasks ex w in
  (calm w -> status res = 200) /\
  ((exists m, res = failure m) \/
   (status res = 200 /\
    (forall text expiry,
        redis w !! cacheKey = Some (text, expiry) -> clock w <= expiry ->
        hit_path text w res w') /\
    (redis w !! cacheKey = None \/
     (exists text expiry, redis w !! cacheKey = Some (text, expiry) /\ expiry < clock w) ->
     miss_path ex w res w'))).
Proof.
  intros Hcache. rewrite get_tasks_paths.
  destruct (meets w) as [m | ] eqn:Hm0.
  { split; [ intros Hcalm; rewrite calm_meets in Hm0 by assumption; discriminate | eauto ]. }
  destruct (truthy (redis_lookup (redis w) (clock w) cacheKey)) as [hit | ] eqn:Hhit.
  - apply truthy_inv in Hhit as (Hlookup & _).
    destruct (redis_lookup_inv _ _ _ _ Hlookup) as (expiry & Hkey & Hlive).
    destruct (Hcache hit expiry Hkey) as (rows & -> & _).
    rewrite JSON_parse_stringify. split; [ reflexivity | right ].
    split; [ reflexivity | ]. split.
    + intros text expiry' Hkey' _. rewrite Hkey in Hkey'. injection Hkey' as <- _.
      exists (JSON.plain (rows_to_js rows)).
      repeat split; auto using JSON_parse_stringify, JSON_stringify_plain.
    + intros Hgone. apply redis_lookup_gone in Hgone. congruence.
  - destruct (meets (called (RedisGet cacheKey) w)) as [m | ] eqn:Hm1.
    { split; [ | eauto ]. intros Hcalm.
      rewrite calm_meets in Hm1 by (apply calm_called; assumption). discriminate. }
    destruct (meets (called PgSelect (called (RedisGet cacheKey) w))) as [m | ] eqn:Hm2.
    { split; [ | eauto ]. intros Hcalm.
      rewrite calm_meets in Hm2 by (repeat apply calm_called; assumption). discriminate. }
    split; [ reflexivity | right ]. split; [ reflexivity | ]. split.
    + intros text expiry Hkey Hlive.
      destruct (Hcache text expiry Hkey) as (rows & -> & _).
      rewrite (redis_lookup_live _ _ _ _ _ Hkey Hlive) in Hhit.
      rewrite truthy_text in Hhit by apply JSON_stringify_not_empty. discriminate.
    + intros _. unfold miss_path. cbn [fst snd set_redis called redis tasks trace].
      repeat split; auto using order_by_perm, order_by_sorted.
      now rewrite <- !app_assoc.
Qed.

(** ** What each handler may change *)

Lemma get_tasks_frame (ex : Executor) (w : World) :
  let w' := snd (get_tasks ex w) in
  tasks w' = tasks w /\ tasks_id_seq w' = tasks_id_seq w /\ clock w' = clock w /\
  (redis w' = redis w \/
   redis w' = <[cacheKey := (JSON.stringify (rows_to_js (order_by_created_at_desc ex (tasks w))),
                            clock w + 60 * 1000)]> (redis w)).
Proof.
  cbv zeta. rewrite get_tasks_paths.
  destruct (meets w); [ cbn; auto | ].
  destruct (truthy _); [ destruct (JSON.parse _); cbn; auto | ].
  destruct (meets _); [ cbn; auto | ].
  destruct (meets _); cbn; auto.
Qed.

Lemma post_tasks_frame (t d : option string) (w : World) :
  let w' := snd (post_tasks t d w) in
  clock w' = clock w /\
  (redis w' = redis w \/ redis w' = delete cacheKey (redis w)) /\
  ((tasks w' = tasks w /\ tasks_id_seq w <= tasks_id_seq w') \/
   (exists row, tasks w' = tasks w ++ [row] /\ id row = tasks_id_seq w + 1 /\
                tasks_id_seq w' = tasks_id_seq w + 1 /\
                created_at row = clock w /\ updated_at row = clock w)).
Proof.
  cbv zeta. rewrite post_tasks_paths, insert_task_run.
  destruct (meets w); [ cbn; repeat split; auto; left; split; [ reflexivity | lia ] | ].
  pose proof (inserted_frame t d (called (PgInsert t d) w)) as Hframe.
  destruct (pool.inserted t d (called (PgInsert t d) w)) as [[row | m] w1].
  - destruct Hframe as (Hredis & Hclock & _ & _ & _ & Htasks & Hid & Hc & Hu & _ & _ & Hseq).
    assert (Hnew : exists row0, tasks w1 = tasks w ++ [row0] /\ id row0 = tasks_id_seq w + 1 /\
                                tasks_id_seq w1 = tasks_id_seq w + 1 /\
                                created_at row0 = clock w /\ updated_at row0 = clock w)
      by (exists row; auto).
    rewrite redisClient_del_run. destruct (meets w1); cbn; rewrite Hredis; auto.
  - destruct Hframe as (Hredis & Hclock & _ & _ & Hseq & Htasks). cbn in *.
    split; [ assumption | ]. split; [ now left | ]. left. split; [ assumption | lia ].
Qed.

Lemma cache_ok_redis (w w' : World) : redis w' = redis w -> cache_ok w -> cache_ok w'.
Proof. unfold cache_ok. now intros ->. Qed.

Lemma cache_ok_empty (w : World) : redis w = ∅ -> cache_ok w.
Proof. unfold cache_ok. intros -> text expiry H. now rewrite lookup_empty in H. Qed.

Lemma get_tasks_cache_ok (ex : Executor) (w : World) :
  cache_ok w -> cache_ok (snd (get_tasks ex w)).
Proof.
  intros Hok. destruct (get_tasks_frame ex w) as (_ & _ & _ & [Hsame | Hset]).
  - now apply (cache_ok_redis w).
  - unfold cache_ok. rewrite Hset, lookup_insert_eq. intros text expiry [= <- _].
    eexists. split; [ reflexivity | apply order_by_sorted ].
Qed.

Lemma post_tasks_cache_ok (t d : option string) (w : World) :
  cache_ok w -> cache_ok (snd (post_tasks t d w)).
Proof.
  intros Hok. destruct (post_tasks_frame t d w) as (_ & [Hsame | Hdel] & _).
  - now apply (cache_ok_redis w).
  - unfold cache_ok. rewrite Hdel, lookup_delete_eq. discriminate.
Qed.

Lemma sql_update_redis (i : Z) (a : Assignment) (w : World) :
  redis (sql_update i a w) = redis w.
Proof. unfold sql_update. now destruct (update_rows _ _ _ _). Qed.

Lemma step_cache_ok (w w' : World) : step w w' -> cache_ok w -> cache_ok w'.
Proof.
  intros [ex [ | | t d] w0 | i a w0 | dt w0 _ | fs w0 ] Hok; cbn.
  - exact Hok.
  - now apply get_tasks_cache_ok.
  - now apply post_tasks_cache_ok.
  - apply (cache_ok_redis w0); [ apply sql_update_redis | exact Hok ].
  - exact Hok.
  - exact Hok.
Qed.

(** In every world the system reaches, the cache key holds the JSON text of
    a query result, or nothing. *)
Lemma steps_cache_ok (w w' : World) : steps w w' -> cache_ok w -> cache_ok w'.
Proof.
  induction 1 as [ | w1 w2 w3 _ IH Hstep ]; [ trivial | ].
  intros Hok. eapply step_cache_ok; eauto.
Qed.

Lemma after_first_list_cache_ok : cache_ok after_first_list.
Proof.
  apply get_tasks_cache_ok, post_tasks_cache_ok, cache_ok_empty. reflexivity.
Qed.

Lemma list_hit_or_miss_witness :
  let '(res, w') := get_tasks plan_id_asc after_first_list in
  (calm after_first_list -> status res = 200) /\
  ((exists m, res = failure m) \/
   (status res = 200 /\
    (forall text expiry,
        redis after_first_list !! cacheKey = Some (text, expiry) ->
        clock after_first_list <= expiry ->
        hit_path text after_first_list res w') /\
    (redis after_first_list !! cacheKey = None \/
     (exists text expiry, redis after_first_list !! cacheKey = Some (text, expiry) /\
                          expiry < clock after_first_list) ->
     miss_path plan_id_asc after_first_list res w'))).
Proof.
  apply (list_hit_or_miss plan_id_asc after_first_list).
  exact after_first_list_cache_ok.
Defined.

(** ** Two list calls with no create in between *)

Lemma quiet_step_frame (w w' : World) (text : string) (expiry : Z) :
  quiet_step w w' ->
  redis w !! cacheKey = Some (text, expiry) -> text <> "" -> clock w <= expiry ->
  redis w' = redis w.
Proof.
  intros [ex w0 | w0 | d w0 _ | fs w0 ] Hkey Htext Hlive; try reflexivity.
  rewrite get_tasks_paths.
  rewrite (redis_lookup_live _ _ _ _ _ Hkey Hlive), truthy_text by assumption.
  destruct (meets w0); [ reflexivity | ]. destruct (JSON.parse text); reflexivity.
Qed.

Lemma quiet_step_clock (w w' : World) : quiet_step w w' -> clock w <= clock w'.
Proof.
  intros [ex w0 | w0 | d w0 Hd | fs w0 ]; cbn; try lia.
  destruct (get_tasks_frame ex w0) as (_ & _ & -> & _). lia.
Qed.

Lemma quiet_frame (w1 w2 : World) (text : string) (expiry : Z) :
  quiet w1 w2 ->
  redis w1 !! cacheKey = Some (text, expiry) -> text <> "" -> clock w2 <= expiry ->
  redis w2 = redis w1 /\ clock w1 <= clock w2.
Proof.
  induction 1 as [ | w1 w2 w3 _ IH Hstep ]; intros Hkey Htext Hlive.
  - split; [ reflexivity | lia ].
  - pose proof (quiet_step_clock _ _ Hstep) as Hclock.
    destruct IH as (Hredis & Hle); [ assumption | assumption | lia | ].
    split; [ | lia ]. rewrite <- Hredis.
    apply (quiet_step_frame w2 w3 text expiry); [ assumption | | assumption | lia ].
    now rewrite Hredis.
Qed.

(** A list call answered from the database has written its answer to the
    cache. *)
Lemma get_tasks_populates (ex : Executor) (w w1 : World) (rows : list Row) :
  get_tasks ex w = (from_database rows, w1) ->
  redis w1 = <[cacheKey := (JSON.stringify (rows_to_js rows), clock w + 60 * 1000)]> (redis w)
  /\ clock w1 = clock w.
Proof.
  rewrite get_tasks_paths. intros H.
  destruct (meets w); [ discriminate | ].
  destruct (truthy _); [ destruct (JSON.parse _); discriminate | ].
  destruct (meets _); [ discriminate | ].
  destruct (meets _); [ discriminate | ].
  injection H as Hrows <-. cbn. unfold rows_to_js in *. now rewrite Hrows.
Qed.

(** C7: a list call made less than 60 seconds after a list call that
    populated the cache, with no create in between (other list and health
    requests may come, and the collaborators may fail and recover), is
    answered from the cache, and the data it carries has the very JSON text
    of the first call's data; the only other outcome is a 500 when its own
    read of the cache is rejected. *)
Theorem list_twice_same_data (ex ex' : Executor) (w w1 w2 : World) (rows : list Row) :
  get_tasks ex w = (from_database rows, w1) ->
  quiet w1 w2 ->
  clock w2 - clock w < 60 * 1000 ->
  match meets w2 with
  | None =>
      exists data,
        fst (get_tasks ex' w2) = from_cache data /\
        data = JSON.plain (rows_to_js rows) /\
        JSON.stringify data = JSON.stringify (rows_to_js rows)
  | Some m => fst (get_tasks ex' w2) = failure m
  end.
Proof.
  intros Hfirst Hquiet Hwithin.
  destruct (get_tasks_populates ex w w1 rows Hfirst) as (Hredis & Hclock).
  assert (Hkey : redis w1 !! cacheKey
                 = Some (JSON.stringify (rows_to_js rows), clock w + 60 * 1000))
    by (rewrite Hredis; apply lookup_insert_eq).
  destruct (quiet_frame w1 w2 _ _ Hquiet Hkey) as (Hsame & _);
    [ apply JSON_stringify_not_empty | lia | ].
  rewrite get_tasks_paths. destruct (meets w2) as [m | ]; [ reflexivity | ].
  rewrite (redis_lookup_live _ _ _ (JSON.stringify (rows_to_js rows)) (clock w + 60 * 1000))
    by (rewrite ?Hsame; assumption || lia).
  rewrite truthy_text by apply JSON_stringify_not_empty.
  rewrite JSON_parse_stringify. eexists.
  split; [ reflexivity | split; [ reflexivity | apply JSON_stringify_plain ] ].
Qed.

Lemma list_twice_same_data_witness :
  match meets (tick 59999 after_first_list) with
  | None =>
      exists data,
        fst (get_tasks plan_id_desc (tick 59999 after_first_list)) = from_cache data /\
        data = JSON.plain (rows_to_js [rowA]) /\
        JSON.stringify data = JSON.stringify (rows_to_js [rowA])
  | Some m => fst (get_tasks plan_id_desc (tick 59999 after_first_list)) = failure m
  end.
Proof.
  apply (list_twice_same_data plan_id_asc plan_id_desc after_create_A after_first_list
           (tick 59999 after_first_list) [rowA]).
  - reflexivity.
  - eapply quiet_next; [ apply quiet_refl | apply quiet_tick; lia ].
  - vm_compute. reflexivity.
Defined.

(** ** The order of the listed tasks *)

(** C4, as the code has it: the sequence a list call answers, whether it
    comes from the table or from the cache, is ordered by [created_at]
    descending (it is such a sequence of rows, or the JSON reading of one),
    and a sequence answered from the database holds exactly the rows of the
    table.  The order among rows of equal [created_at] is the one the
    database returned: the query names no second key. *)
Theorem list_is_sorted (ex : Executor) (w w' : World) (res : Response) :
  cache_ok w ->
  get_tasks ex w = (res, w') ->
  status res = 200 ->
  exists (source : string) (data : value) (rows : list Row),
    body res = VObj [("source", VStr source); ("data", data)] /\
    JSON.plain data = JSON.plain (rows_to_js rows) /\
    Sorted created_desc rows /\
    (source = "database" -> data = rows_to_js rows /\ Permutation rows (tasks w)).
Proof.
  intros Hcache Hget H200. rewrite get_tasks_paths in Hget.
  destruct (meets w); [ other_response Hget | ].
  destruct (truthy _) as [hit | ] eqn:Hhit.
  - unfold redis_lookup in Hhit.
    destruct (redis w !! cacheKey) as [[text expiry] | ] eqn:Hkey; [ | discriminate ].
    destruct (Hcache text expiry Hkey) as (rows & -> & Hsorted).
    destruct (clock w <=? expiry); [ | discriminate ].
    rewrite truthy_text in Hhit by apply JSON_stringify_not_empty.
    injection Hhit as <-. rewrite JSON_parse_stringify in Hget. injection Hget as <- _.
    exists "cache", (JSON.plain (rows_to_js rows)), rows.
    repeat split; [ apply plain_idempotent | assumption | discriminate | discriminate ].
  - destruct (meets _); [ other_response Hget | ].
    destruct (meets _); [ other_response Hget | ].
    injection Hget as <- _.
    exists "database", (rows_to_js (order_by_created_at_desc ex (tasks w))),
      (order_by_created_at_desc ex (tasks w)).
    repeat split; auto using order_by_perm, order_by_sorted.
Qed.

Lemma list_is_sorted_witness :
  exists (source : string) (data : value) (rows : list Row),
    body (fst (get_tasks plan_id_asc after_create_B))
    = VObj [("source", VStr source); ("data", data)] /\
    JSON.plain data = JSON.plain (rows_to_js rows) /\
    Sorted created_desc rows /\
    (source = "database" -> data = rows_to_js rows /\ Permutation rows (tasks after_create_B)).
Proof.
  apply (list_is_sorted plan_id_asc after_create_B
           (snd (get_tasks plan_id_asc after_create_B))
           (fst (get_tasks plan_id_asc after_create_B))).
  - apply post_tasks_cache_ok. apply (cache_ok_redis after_first_list); [ reflexivity | ].
    exact after_first_list_cache_ok.
  - apply surjective_pairing.
  - vm_compute. reflexivity.
Defined.

(** C4, as the claim states it, fails on rows of equal [created_at]: the
    four sample rows of 01-init.sql share one CURRENT_TIMESTAMP, and a plan
    that returns them by descending id answers the query as well; the list
    call then answers the ids 4, 3, 2, 1. *)
Lemma list_ties_not_by_id :
  fst (get_tasks plan_id_desc (init_world 1000)) = from_database (rev (init_rows 1000)) /\
  Sorted created_desc (rev (init_rows 1000)) /\
  map id (rev (init_rows 1000)) = [4; 3; 2; 1] /\
  map created_at (rev (init_rows 1000)) = [1000; 1000; 1000; 1000] /\
  ~ ties_by_id_asc (rev (init_rows 1000)).
Proof.
  split; [ vm_compute; reflexivity | ].
  split; [ repeat constructor; unfold created_desc; cbn; lia | ].
  split; [ reflexivity | ]. split; [ reflexivity | ].
  intros Hties. inversion Hties as [ | a l Hhead _ ]; subst.
  inversion Hhead as [ | b l' Hab _ ]; subst.
  specialize (Hab eq_refl). cbn in Hab. lia.
Qed.

(** ** The rows of the table through every event *)

Lemma row_ok_mono (now now' seq seq' : Z) (r : Row) :
  now <= now' -> seq <= seq' -> row_ok now seq r -> row_ok now' seq' r.
Proof. unfold row_ok. lia. Qed.

Lemma table_ok_mono (w w' : World) :
  tasks w' = tasks w -> clock w <= clock w' -> tasks_id_seq w <= tasks_id_seq w' ->
  table_ok w -> table_ok w'.
Proof.
  unfold table_ok. intros -> Hclock Hseq (Hpos & Hrows & Hids).
  split; [ lia | ]. split; [ | assumption ].
  eapply Forall_impl; [ exact Hrows | ]. intros r. now apply row_ok_mono.
Qed.

(** The trigger on one row: the statement has left [id] and [created_at]
    alone, and the trigger stamps [updated_at]. *)
Lemma assign_trigger (now : Z) (a : Assignment) (r r' : Row) :
  assign a r = Some r' ->
  id (update_updated_at_column now r') = id r /\
  created_at (update_updated_at_column now r') = created_at r /\
  updated_at (update_updated_at_column now r') = now.
Proof.
  destruct a as [t | d | c | instant]; cbn.
  - destruct (varchar_255 t); [ | discriminate ]. intros [= <-]. repeat split.
  - intros [= <-]. repeat split.
  - intros [= <-]. repeat split.
  - intros [= <-]. repeat split.
Qed.

Lemma update_rows_ok (now seq i : Z) (a : Assignment) (rows rows' : list Row) :
  update_rows now i a rows = Some rows' ->
  Forall (row_ok now seq) rows ->
  Forall (row_ok now seq) rows' /\ map id rows' = map id rows.
Proof.
  revert rows'. induction rows as [ | r rows IH ]; intros rows' Hupd Hok; cbn in Hupd.
  - injection Hupd as <-. split; [ constructor | reflexivity ].
  - inversion Hok as [ | r0 l Hr Hrows ]; subst.
    destruct (update_rows now i a rows) as [rest | ]; [ | discriminate ].
    destruct (IH rest eq_refl Hrows) as (Hrest & Hids).
    destruct (id r =? i).
    + destruct (assign a r) as [r' | ] eqn:Hassign; [ | discriminate ].
      injection Hupd as <-.
      destruct (assign_trigger now a r r' Hassign) as (Hid & Hcreated & Hupdated).
      split; [ constructor; [ | exact Hrest ] | cbn [map]; now rewrite Hid, Hids ].
      unfold row_ok in *. rewrite Hid, Hcreated, Hupdated. lia.
    + injection Hupd as <-. split; [ now constructor | cbn [map]; now rewrite Hids ].
Qed.

Lemma sql_update_table_ok (i : Z) (a : Assignment) (w : World) :
  table_ok w ->
  table_ok (sql_update i a w) /\ map id (tasks (sql_update i a w)) = map id (tasks w).
Proof.
  intros (Hpos & Hrows & Hids). unfold sql_update.
  destruct (update_rows (clock w) i a (tasks w)) as [rows' | ] eqn:Hupd.
  - destruct (update_rows_ok _ _ _ _ _ _ Hupd Hrows) as (Hrows' & Hsame).
    split; [ | exact Hsame ]. unfold table_ok. cbn. rewrite Hsame. auto.
  - split; [ | reflexivity ]. unfold table_ok. auto.
Qed.

Lemma post_tasks_table_ok (t d : option string) (w : World) :
  table_ok w ->
  table_ok (snd (post_tasks t d w)) /\
  exists fresh, map id (tasks (snd (post_tasks t d w))) = map id (tasks w) ++ fresh.
Proof.
  intros Hok. destruct (post_tasks_frame t d w) as (Hclock & _ & [(Htasks & Hseq) | Hnew]).
  - split; [ apply (table_ok_mono w); auto; lia | ].
    exists []. now rewrite Htasks, app_nil_r.
  - destruct Hnew as (row & Htasks & Hid & Hseq & Hcreated & Hupdated).
    destruct Hok as (Hpos & Hrows & Hids).
    split; [ | exists [id row]; now rewrite Htasks, map_app ].
    unfold table_ok. rewrite Htasks, Hseq, Hclock. split; [ lia | ]. split.
    + apply Forall_app. split.
      * eapply Forall_impl; [ exact Hrows | ]. intros r. apply row_ok_mono; lia.
      * constructor; [ | constructor ]. unfold row_ok. lia.
    + rewrite map_app. cbn [map]. apply NoDup_app. split; [ exact Hids | ].
      split; [ | apply NoDup_singleton ].
      intros x Hx Hx'. apply list_elem_of_In in Hx, Hx'.
      destruct Hx' as [<- | []]. apply in_map_iff in Hx as (r & Hr & Hin).
      rewrite Forall_forall in Hrows. apply list_elem_of_In, Hrows in Hin.
      unfold row_ok in Hin. lia.
Qed.

Lemma step_table_ok (w w' : World) :
  step w w' -> table_ok w ->
  table_ok w' /\ exists fresh, map id (tasks w') = map id (tasks w) ++ fresh.
Proof.
  intros [ex [ | | t d] w0 | i a w0 | dt w0 Hdt | fs w0 ] Hok; cbn [app].
  - split; [ exact Hok | exists []; now rewrite app_nil_r ].
  - destruct (get_tasks_frame ex w0) as (Htasks & Hseq & Hclock & _).
    split; [ apply (table_ok_mono w0); auto; lia | exists []; now rewrite Htasks, app_nil_r ].
  - now apply post_tasks_table_ok.
  - destruct (sql_update_table_ok i a w0 Hok) as (Hok' & Hids).
    split; [ exact Hok' | exists []; now rewrite Hids, app_nil_r ].
  - split; [ apply (table_ok_mono w0); cbn; auto; lia | exists []; now rewrite app_nil_r ].
  - split; [ exact Hok | exists []; now rewrite app_nil_r ].
Qed.

Lemma init_world_table_ok (now : Z) : table_ok (init_world now).
Proof.
  unfold table_ok. cbn. split; [ lia | ]. split.
  - repeat constructor; cbn; lia.
  - repeat constructor; cbn; intros H; apply list_elem_of_In in H; cbn in H; intuition lia.
Qed.

Lemma empty_world_table_ok (now : Z) : table_ok (empty_world now).
Proof. unfold table_ok. cbn. repeat split; [ lia | constructor | constructor ]. Qed.

(** C8: through every sequence of events (requests served, updates of a
    task by a client of the database, time passing, failures), every task of
    the table has [updated_at >= created_at]; the ids of the tasks are all
    different; and the ids of the rows that were there are still theirs, in
    place: a row gets its id when it is inserted and keeps it. *)
Theorem timestamps_and_ids (w w' : World) :
  table_ok w ->
  steps w w' ->
  Forall (fun r => created_at r <= updated_at r) (tasks w') /\
  NoDup (map id (tasks w')) /\
  (exists fresh, map id (tasks w') = map id (tasks w) ++ fresh) /\
  table_ok w'.
Proof.
  intros Hok Hsteps.
  assert (H : table_ok w' /\ exists fresh, map id (tasks w') = map id (tasks w) ++ fresh).
  { induction Hsteps as [ | w1 w2 w3 _ IH Hstep ].
    - split; [ exact Hok | exists []; now rewrite app_nil_r ].
    - destruct (IH Hok) as (Hok2 & fresh2 & Hids2).
      destruct (step_table_ok w2 w3 Hstep Hok2) as (Hok3 & fresh3 & Hids3).
      split; [ exact Hok3 | ]. exists (fresh2 ++ fresh3).
      now rewrite Hids3, Hids2, app_assoc. }
  destruct H as (Hok' & Hids). pose proof Hok' as (_ & Hrows & Hnodup).
  split; [ | split; [ assumption | split; assumption ] ].
  eapply Forall_impl; [ exact Hrows | ]. unfold row_ok. intros r. lia.
Qed.

Lemma timestamps_and_ids_witness :
  Forall (fun r => created_at r <= updated_at r) (tasks busy_day) /\
  NoDup (map id (tasks busy_day)) /\
  (exists fresh, map id (tasks busy_day) = map id (tasks (init_world 1000)) ++ fresh) /\
  table_ok busy_day.
Proof.
  apply (timestamps_and_ids (init_world 1000) busy_day).
  - apply init_world_table_ok.
  - unfold busy_day.
    eapply steps_next; [ | apply step_update ].
    eapply steps_next; [ | apply step_tick; lia ].
    eapply steps_next; [ apply steps_refl | apply step_request ].
Defined.

Example busy_day_rows :
  map (fun r => (id r, completed r, created_at r, updated_at r)) (tasks busy_day)
  = [(1, true, 1000, 1000); (2, true, 1000, 6000); (3, false, 1000, 1000);
     (4, false, 1000, 1000); (5, false, 1000, 1000)].
Proof. vm_compute. reflexivity. Qed.

(** ** The invariants in every world the system reaches *)

Lemma steps_table_ok (w w' : World) : table_ok w -> steps w w' -> table_ok w'.
Proof.
  intros Hok Hsteps. induction Hsteps as [ | w1 w2 w3 _ IH Hstep ]; [ exact Hok | ].
  apply (step_table_ok w2 w3 Hstep), IH, Hok.
Qed.

Lemma reachable_invariants (w : World) : reachable w -> cache_ok w /\ table_ok w.
Proof.
  intros (now & [Hsteps | Hsteps]); split.
  - apply (steps_cache_ok _ _ Hsteps), cache_ok_empty. reflexivity.
  - apply (steps_table_ok _ _ (init_world_table_ok now) Hsteps).
  - apply (steps_cache_ok _ _ Hsteps), cache_ok_empty. reflexivity.
  - apply (steps_table_ok _ _ (empty_world_table_ok now) Hsteps).
Qed.

(** ** What a list call can fail on *)

(** What the cache serves reads back as the rows it was written from. *)
Lemma cached_text_parses (w : World) (hit : string) :
  cache_ok w ->
  truthy (redis_lookup (redis w) (clock w) cacheKey) = Some hit ->
  exists rows,
    hit = JSON.stringify (rows_to_js rows) /\
    Sorted created_desc rows /\
    JSON.parse hit = Some (JSON.plain (rows_to_js rows)).
Proof.
  intros Hcache Hhit. apply truthy_inv in Hhit as (Hlookup & _).
  destruct (redis_lookup_inv _ _ _ _ Hlookup) as (expiry & Hkey & _).
  destruct (Hcache hit expiry Hkey) as (rows & -> & Hsorted).
  exists rows. auto using JSON_parse_stringify.
Qed.

Lemma meets_inv (w : World) :
  match meets w with
  | Some m => exists rest, faults w = Some m :: rest
  | None => faults w = [] \/ exists rest, faults w = None :: rest
  end.
Proof. unfold meets. destruct (faults w) as [ | [m | ] rest ]; eauto. Qed.

(** X1: the error of a list call is never the handler's own.  In a world
    whose cache key holds what a list call wrote (every world the system
    reaches), whenever a list call is answered 500 the message it carries is
    that of the rejection its last call met, the calls it made before having
    met none: the call fails at its first rejected call to Redis or
    PostgreSQL and on nothing else.  In particular [JSON.parse(cached)]
    never throws. *)
Theorem list_error_is_a_rejected_call (ex : Executor) (w : World) (m : string) :
  cache_ok w ->
  fst (get_tasks ex w) = failure m ->
  exists before rest : list (option string),
    faults w = before ++ Some m :: rest /\
    Forall (fun f => f = None) before /\
    length (trace (snd (get_tasks ex w))) = (length (trace w) + S (length before))%nat.
Proof.
  intros Hcache. rewrite get_tasks_paths.
  pose proof (meets_inv w) as H0.
  pose proof (meets_inv (called (RedisGet cacheKey) w)) as H1.
  pose proof (meets_inv (called PgSelect (called (RedisGet cacheKey) w))) as H2.
  cbn [called faults] in H1, H2.
  destruct (meets w) as [m0 | ].
  { intros [= <-]. destruct H0 as (rest & ->). exists [], rest. cbn [fst snd called trace].
    rewrite length_app. repeat split. constructor. }
  destruct (truthy _) as [hit | ] eqn:Hhit.
  { destruct (cached_text_parses w hit Hcache Hhit) as (rows & _ & _ & ->). discriminate. }
  destruct (meets (called (RedisGet cacheKey) w)) as [m1 | ].
  { intros [= <-]. destruct H1 as (rest & H1).
    destruct H0 as [H0 | (rest0 & H0)]; rewrite H0 in H1; [ discriminate | ].
    cbn in H1. subst rest0. exists [None], rest. cbn [fst snd called trace].
    rewrite !length_app. cbn. repeat split; [ assumption | repeat constructor | lia ]. }
  destruct (meets (called PgSelect _)) as [m2 | ]; [ | discriminate ].
  intros [= <-]. destruct H2 as (rest & H2).
  destruct H0 as [H0 | (rest0 & H0)]; rewrite H0 in H1, H2; [ discriminate | ].
  cbn in H1, H2. destruct H1 as [H1 | (rest1 & H1)]; rewrite H1 in H2; [ discriminate | ].
  cbn in H2. subst rest0 rest1. exists [None; None], rest. cbn [fst snd called trace].
  rewrite !length_app. cbn. repeat split; [ assumption | repeat constructor | lia ].
Qed.

Lemma list_error_is_a_rejected_call_witness :
  let w := with_faults [None; None; Some redis_loading]
             after_create_A in
  exists before rest : list (option string),
    faults w = before ++ Some redis_loading :: rest /\
    Forall (fun f => f = None) before /\
    length (trace (snd (get_tasks plan_id_asc w))) = (length (trace w) + S (length before))%nat.
Proof.
  apply (list_error_is_a_rejected_call plan_id_asc
           (with_faults [None; None; Some redis_loading]
              after_create_A)).
  - apply post_tasks_cache_ok, cache_ok_empty. reflexivity.
  - vm_compute. reflexivity.
Defined.

(** X2: there is no fallback from the cache to the table.  When the read
    of the cache is rejected (Redis is down, say), the list call is answered
    500 with that error and the table is not queried, whatever it holds.
    When the read succeeds and misses and the query succeeds, but the write
    of the result to the cache is rejected, the rows that were read are not
    served either: the answer is 500 and the cache stays as it was. *)
Theorem list_needs_the_cache (ex : Executor) (w : World) (m : string)
    (fs : list (option string)) :
  (faults w = Some m :: fs ->
   get_tasks ex w = (failure m, called (RedisGet cacheKey) w)) /\
  (faults w = None :: None :: Some m :: fs ->
   redis_lookup (redis w) (clock w) cacheKey = None ->
   fst (get_tasks ex w) = failure m /\
   redis (snd (get_tasks ex w)) = redis w /\
   trace (snd (get_tasks ex w))
   = trace w ++ [RedisGet cacheKey; PgSelect;
                 RedisSetEx cacheKey 60
                   (JSON.stringify (rows_to_js (order_by_created_at_desc ex (tasks w))))]).
Proof.
  rewrite get_tasks_paths. unfold meets. cbn [called faults]. split.
  - now intros ->.
  - intros -> ->. cbn. repeat split. now rewrite <- !app_assoc.
Qed.

(** ** What no request does *)

Lemma api_step_appends (w w' : World) :
  api_step w w' -> exists added, tasks w' = tasks w ++ added.
Proof.
  intros [ex [ | | t d] w0 | dt w0 _ | fs w0 ]; cbn [app];
    try (exists []; now rewrite app_nil_r).
  - exists []. destruct (get_tasks_frame ex w0) as (-> & _). now rewrite app_nil_r.
  - destruct (post_tasks_frame t d w0) as (_ & _ & [(-> & _) | (row & -> & _)]).
    + exists []. now rewrite app_nil_r.
    + now exists [row].
Qed.

(** X3: the API has no way to remove or to change a task.  Through any
    sequence of requests (with time passing and calls failing in between),
    the rows the table held are still there, unchanged and in place; all a
    run does to the table is append rows. *)
Theorem tasks_are_never_removed (w w' : World) :
  api_run w w' -> exists added, tasks w' = tasks w ++ added.
Proof.
  induction 1 as [ w | w1 w2 w3 _ (added & IH) Hstep ].
  - exists []. now rewrite app_nil_r.
  - destruct (api_step_appends w2 w3 Hstep) as (more & ->).
    exists (added ++ more). now rewrite IH, app_assoc.
Qed.

Lemma tasks_are_never_removed_witness :
  exists added, tasks after_create_B = tasks (empty_world 1000) ++ added.
Proof.
  apply (tasks_are_never_removed (empty_world 1000) after_create_B).
  unfold after_create_B.
  eapply api_next; [ | apply (api_request plan_id_asc (POST_api_tasks (Some "B") (Some "d2"))) ].
  eapply api_next; [ | apply api_tick; lia ].
  eapply api_next; [ | apply (api_request plan_id_asc GET_api_tasks) ].
  eapply api_next; [ apply api_refl | ].
  apply (api_request plan_id_asc (POST_api_tasks (Some "A") (Some "d1"))).
Defined.

Lemma step_other_keys (w w' : World) (key : string) :
  step w w' -> key <> cacheKey -> redis w' !! key = redis w !! key.
Proof.
  intros [ex [ | | t d] w0 | i a w0 | dt w0 _ | fs w0 ] Hkey; cbn [app]; try reflexivity.
  - destruct (get_tasks_frame ex w0) as (_ & _ & _ & [-> | ->]); [ reflexivity | ].
    now apply lookup_insert_ne.
  - destruct (post_tasks_frame t d w0) as (_ & [-> | ->] & _); [ reflexivity | ].
    now apply lookup_delete_ne.
  - now rewrite sql_update_redis.
Qed.

(** X4: the handlers touch one key of Redis, ['tasks:all'].  Whatever
    other clients keep under other keys of the same Redis is still there,
    with its expiry, after any sequence of events. *)
Theorem other_keys_are_untouched (w w' : World) (key : string) :
  steps w w' -> key <> cacheKey -> redis w' !! key = redis w !! key.
Proof.
  intros Hsteps Hkey. induction Hsteps as [ w | w1 w2 w3 _ IH Hstep ]; [ reflexivity | ].
  rewrite <- IH. now apply step_other_keys.
Qed.

Lemma other_keys_are_untouched_witness :
  redis busy_day !! "session:42" = redis (init_world 1000) !! "session:42".
Proof.
  apply (other_keys_are_untouched (init_world 1000) busy_day "session:42").
  - unfold busy_day.
    eapply steps_next; [ | apply step_update ].
    eapply steps_next; [ | apply step_tick; lia ].
    eapply steps_next; [ apply steps_refl | apply step_request ].
  - discriminate.
Defined.

(** ** Sixty seconds *)

Lemma sql_update_clock (i : Z) (a : Assignment) (w : World) :
  clock (sql_update i a w) = clock w.
Proof. unfold sql_update. now destruct (update_rows _ _ _ _). Qed.

Lemma step_short_lived (w w' : World) : step w w' -> short_lived w -> short_lived w'.
Proof.
  unfold short_lived.
  intros [ex [ | | t d] w0 | i a w0 | dt w0 Hdt | fs w0 ] Hshort text expiry; cbn [app].
  - apply Hshort.
  - destruct (get_tasks_frame ex w0) as (_ & _ & -> & [-> | ->]); [ apply Hshort | ].
    rewrite lookup_insert_eq. intros [= _ <-]. lia.
  - destruct (post_tasks_frame t d w0) as (-> & [-> | ->] & _); [ apply Hshort | ].
    now rewrite lookup_delete_eq.
  - rewrite sql_update_redis, sql_update_clock. apply Hshort.
  - cbn. intros Hkey. specialize (Hshort text expiry Hkey). lia.
  - apply Hshort.
Qed.

Lemma reachable_short_lived (w : World) : reachable w -> short_lived w.
Proof.
  assert (Hsteps : forall w0, short_lived w0 -> steps w0 w -> short_lived w).
  { intros w0 Hshort Hsteps. induction Hsteps as [ | w1 w2 w3 _ IH Hstep ]; [ exact Hshort | ].
    apply (step_short_lived w2 w3 Hstep), IH, Hshort. }
  intros (now & [Hrun | Hrun]); refine (Hsteps _ _ Hrun); intros text expiry Hkey;
    cbn in Hkey; now rewrite lookup_empty in Hkey.
Qed.

Lemma after_first_list_reachable : reachable after_first_list.
Proof.
  exists 1000. right. unfold after_first_list, after_create_A.
  eapply steps_next; [ | apply (step_request plan_id_asc GET_api_tasks) ].
  eapply steps_next; [ apply steps_refl | ].
  apply (step_request plan_id_asc (POST_api_tasks (Some "A") (Some "d1"))).
Qed.

(** X5: a cached list is served for 60 seconds and no longer.  Whatever
    has happened before, once more than 60 seconds pass without a request,
    a list call whose calls meet no fault queries the table again: it
    answers, tagged ['database'], the rows the table holds at that moment,
    and writes them to the cache for another 60 seconds.  A list that has
    gone stale is therefore served for 60 seconds at most. *)
Theorem list_after_sixty_seconds (ex : Executor) (w w2 : World) :
  reachable w ->
  later w w2 ->
  clock w + 60 * 1000 < clock w2 ->
  calm w2 ->
  let rows := order_by_created_at_desc ex (tasks w2) in
  fst (get_tasks ex w2) = from_database rows /\
  Permutation rows (tasks w2) /\
  redis (snd (get_tasks ex w2)) !! cacheKey
  = Some (JSON.stringify (rows_to_js rows), clock w2 + 60 * 1000) /\
  trace (snd (get_tasks ex w2))
  = trace w2 ++ [RedisGet cacheKey; PgSelect;
                 RedisSetEx cacheKey 60 (JSON.stringify (rows_to_js rows))].
Proof.
  intros Hreach (_ & _ & Hredis & _) Hlate Hcalm rows.
  pose proof (reachable_short_lived w Hreach) as Hshort.
  rewrite get_tasks_paths.
  rewrite calm_meets by assumption.
  rewrite (redis_lookup_gone (redis w2) (clock w2) cacheKey).
  2:{ rewrite Hredis. destruct (redis w !! cacheKey) as [[text expiry] | ] eqn:Hkey;
        [ right | now left ].
      exists text, expiry. split; [ reflexivity | ].
      specialize (Hshort text expiry Hkey). lia. }
  cbn [truthy].
  rewrite !calm_meets by (repeat apply calm_called; assumption).
  cbn [fst snd set_redis called redis trace]. fold rows.
  split; [ reflexivity | ]. split; [ apply order_by_perm | ].
  split; [ apply lookup_insert_eq | ].
  now rewrite <- !app_assoc.
Qed.

Lemma list_after_sixty_seconds_witness :
  let w2 := tick 60001 after_first_list in
  let rows := order_by_created_at_desc plan_id_desc (tasks w2) in
  fst (get_tasks plan_id_desc w2) = from_database rows /\
  Permutation rows (tasks w2) /\
  redis (snd (get_tasks plan_id_desc w2)) !! cacheKey
  = Some (JSON.stringify (rows_to_js rows), clock w2 + 60 * 1000) /\
  trace (snd (get_tasks plan_id_desc w2))
  = trace w2 ++ [RedisGet cacheKey; PgSelect;
                 RedisSetEx cacheKey 60 (JSON.stringify (rows_to_js rows))].
Proof.
  apply (list_after_sixty_seconds plan_id_desc after_first_list
           (tick 60001 after_first_list)).
  - exact after_first_list_reachable.
  - unfold later. cbn. repeat split. lia.
  - vm_compute. reflexivity.
  - unfold calm. vm_compute. constructor.
Defined.

(** ** The cache against the table *)

Lemma coherent_cache_ok (w : World) : coherent w -> cache_ok w.
Proof.
  intros Hco text expiry Hkey. destruct (Hco text expiry Hkey) as (rows & ? & ? & _). eauto.
Qed.

Lemma coherent_same (w w' : World) :
  redis w' = redis w -> tasks w' = tasks w -> coherent w -> coherent w'.
Proof. unfold coherent. now intros -> ->. Qed.

Lemma coherent_no_key (w : World) : redis w !! cacheKey = None -> coherent w.
Proof. intros Hnone text expiry Hkey. congruence. Qed.

Lemma get_tasks_coherent (ex : Executor) (w : World) :
  coherent w -> coherent (snd (get_tasks ex w)).
Proof.
  intros Hco. destruct (get_tasks_frame ex w) as (Htasks & _ & _ & [Hsame | Hset]).
  - now apply (coherent_same w).
  - unfold coherent. rewrite Hset, lookup_insert_eq, Htasks. intros text expiry [= <- _].
    eexists. split; [ reflexivity | ]. split; [ apply order_by_sorted | apply order_by_perm ].
Qed.

Lemma clean_step_coherent (w w' : World) : clean_step w w' -> coherent w -> coherent w'.
Proof.
  intros [ex [ | | t d] w0 Hclean | dt w0 _ | fs w0 ] Hco; cbn [app] in *; try exact Hco.
  - now apply get_tasks_coherent.
  - destruct Hclean as [Hsame | H201].
    + destruct (post_tasks_frame t d w0) as (_ & [Hredis | Hdel] & _).
      * now apply (coherent_same w0).
      * apply coherent_no_key. rewrite Hdel. apply lookup_delete_eq.
    + destruct (post_tasks_created t d w0 _ _ (surjective_pairing _) H201)
        as (row & _ & _ & Hdel & _).
      apply coherent_no_key. rewrite Hdel. apply lookup_delete_eq.
Qed.

Lemma clean_run_coherent (w w' : World) : clean_run w w' -> coherent w -> coherent w'.
Proof.
  induction 1 as [ | w1 w2 w3 _ IH Hstep ]; [ trivial | ].
  intros Hco. eapply clean_step_coherent; eauto.
Qed.

(** In a run of requests served one at a time in which no create call has
    stored its row and then failed, a list call that is answered 200 gives
    the tasks the table holds. *)
Lemma clean_run_current (ex : Executor) (w0 w : World) :
  coherent w0 ->
  clean_run w0 w ->
  status (fst (get_tasks ex w)) = 200 ->
  exists (source : string) (data : value) (rows : list Row),
    body (fst (get_tasks ex w)) = VObj [("source", VStr source); ("data", data)] /\
    JSON.plain data = JSON.plain (rows_to_js rows) /\
    Sorted created_desc rows /\
    Permutation rows (tasks w).
Proof.
  intros Hco0 Hrun H200. pose proof (clean_run_coherent w0 w Hrun Hco0) as Hco.
  rewrite get_tasks_paths in *.
  destruct (meets w); [ discriminate | ].
  destruct (truthy _) as [hit | ] eqn:Hhit.
  - apply truthy_inv in Hhit as (Hlookup & _).
    destruct (redis_lookup_inv _ _ _ _ Hlookup) as (expiry & Hkey & _).
    destruct (Hco hit expiry Hkey) as (rows & -> & Hsorted & Hperm).
    rewrite JSON_parse_stringify.
    exists "cache", (JSON.plain (rows_to_js rows)), rows.
    repeat split; [ apply plain_idempotent | assumption | assumption ].
  - destruct (meets _); [ discriminate | ].
    destruct (meets _); [ discriminate | ].
    exists "database", (rows_to_js (order_by_created_at_desc ex (tasks w))),
      (order_by_created_at_desc ex (tasks w)).
    repeat split; auto using order_by_perm, order_by_sorted.
Qed.

(** ** Ids follow the order of creation *)

Lemma older_app (rows : list Row) (row : Row) :
  StronglySorted older rows -> Forall (fun r => older r row) rows ->
  StronglySorted older (rows ++ [row]).
Proof.
  induction 1 as [ | r rows Hsorted IH Hr ]; intros Hall; cbn.
  - repeat constructor.
  - inversion Hall as [ | r0 l Hhead Htail ]; subst.
    constructor; [ now apply IH | ]. apply Forall_app. split; [ exact Hr | now constructor ].
Qed.

(** Rows that agree on [id] and [created_at], place by place, are in the
    same order. *)
Lemma older_keys (rows rows' : list Row) :
  map id rows' = map id rows -> map created_at rows' = map created_at rows ->
  StronglySorted older rows -> StronglySorted older rows'.
Proof.
  intros Hids Hcreated Hsorted. revert rows' Hids Hcreated.
  induction Hsorted as [ | r rows Hsorted IH Hr ]; intros [ | r' rows' ] Hids Hcreated;
    try discriminate; [ constructor | ].
  cbn in Hids, Hcreated. injection Hids as Hid Hids. injection Hcreated as Hc Hcreated.
  constructor; [ now apply IH | ].
  clear IH Hsorted. revert rows' Hids Hcreated.
  induction Hr as [ | x rows Hx Hrows IH ]; intros [ | x' rows' ] Hids Hcreated;
    try discriminate; [ constructor | ].
  cbn in Hids, Hcreated. injection Hids as Hidx Hids. injection Hcreated as Hcx Hcreated.
  constructor; [ unfold older in *; lia | now apply IH ].
Qed.

Lemma update_rows_keys (now i : Z) (a : Assignment) (rows rows' : list Row) :
  update_rows now i a rows = Some rows' ->
  map id rows' = map id rows /\ map created_at rows' = map created_at rows.
Proof.
  revert rows'. induction rows as [ | r rows IH ]; intros rows' Hupd; cbn in Hupd.
  - now injection Hupd as <-.
  - destruct (update_rows now i a rows) as [rest | ]; [ | discriminate ].
    destruct (IH rest eq_refl) as (Hids & Hcreated).
    destruct (id r =? i).
    + destruct (assign a r) as [r' | ] eqn:Hassign; [ | discriminate ].
      injection Hupd as <-.
      destruct (assign_trigger now a r r' Hassign) as (Hid & Hc & _).
      cbn [map]. now rewrite Hid, Hc, Hids, Hcreated.
    + injection Hupd as <-. cbn [map]. now rewrite Hids, Hcreated.
Qed.

Lemma step_older (w w' : World) :
  step w w' -> table_ok w -> StronglySorted older (tasks w) ->
  StronglySorted older (tasks w').
Proof.
  intros [ex [ | | t d] w0 | i a w0 | dt w0 _ | fs w0 ] (_ & Hrows & _) Hsorted;
    cbn [app]; try exact Hsorted.
  - now destruct (get_tasks_frame ex w0) as (-> & _).
  - destruct (post_tasks_frame t d w0)
      as (_ & _ & [(-> & _) | (row & -> & Hid & _ & Hcreated & _)]); [ exact Hsorted | ].
    apply older_app; [ exact Hsorted | ].
    eapply Forall_impl; [ exact Hrows | ]. unfold row_ok, older. intros r. lia.
  - unfold sql_update. destruct (update_rows _ _ _ _) as [rows' | ] eqn:Hupd; [ | exact Hsorted ].
    destruct (update_rows_keys _ _ _ _ _ Hupd) as (Hids & Hcreated).
    now apply (older_keys (tasks w0)).
Qed.

Lemma steps_older (w w' : World) :
  steps w w' -> table_ok w -> StronglySorted older (tasks w) ->
  StronglySorted older (tasks w').
Proof.
  intros Hsteps Hok Hsorted. induction Hsteps as [ | w1 w2 w3 Hsteps IH Hstep ]; [ exact Hsorted | ].
  apply (step_older w2 w3 Hstep); [ apply (steps_table_ok w1 w2 Hok Hsteps) | now apply IH ].
Qed.

Lemma busy_day_reachable : reachable busy_day.
Proof.
  exists 1000. left. unfold busy_day.
  eapply steps_next; [ | apply step_update ].
  eapply steps_next; [ | apply step_tick; lia ].
  eapply steps_next; [ apply steps_refl | apply step_request ].
Qed.

(** ** Titles and VARCHAR(255) *)

Lemma split_chars_app (n : nat) (s a b : text) :
  split_chars n s = (a, b) -> s = a ++ b.
Proof.
  revert n a b. induction s as [ | c r IH ]; intros n a b; cbn.
  - now intros [= <- <-].
  - destruct (is_continuation c).
    + destruct (split_chars n r) as [a' b'] eqn:Hr. intros [= <- <-].
      now rewrite (IH _ _ _ Hr).
    + destruct n as [ | n' ]; [ now intros [= <- <-] | ].
      destruct (split_chars n' r) as [a' b'] eqn:Hr. intros [= <- <-].
      now rewrite (IH _ _ _ Hr).
Qed.

Lemma split_chars_kept (n : nat) (s a b : text) :
  split_chars n s = (a, b) -> (char_length a <= n)%nat.
Proof.
  revert n a b. induction s as [ | c r IH ]; intros n a b; cbn.
  - intros [= <- <-]. cbn. lia.
  - destruct (is_continuation c) eqn:Hc.
    + destruct (split_chars n r) as [a' b'] eqn:Hr. intros [= <- <-].
      cbn. rewrite Hc. exact (IH _ _ _ Hr).
    + destruct n as [ | n' ]; [ intros [= <- <-]; cbn; lia | ].
      destruct (split_chars n' r) as [a' b'] eqn:Hr. intros [= <- <-].
      cbn. rewrite Hc. pose proof (IH _ _ _ Hr). lia.
Qed.

Lemma split_chars_fits (n : nat) (s : text) :
  (char_length s <= n)%nat -> split_chars n s = (s, []).
Proof.
  revert n. induction s as [ | c r IH ]; intros n; cbn; [ reflexivity | ].
  destruct (is_continuation c).
  - intros Hfit. now rewrite IH.
  - destruct n as [ | n' ]; [ lia | ]. intros Hfit. rewrite IH by lia. reflexivity.
Qed.

Lemma split_chars_excess (n : nat) (s a b : text) :
  split_chars n s = (a, b) -> (n < char_length s)%nat -> b <> [].
Proof.
  revert n a b. induction s as [ | c r IH ]; intros n a b; cbn.
  - lia.
  - destruct (is_continuation c).
    + destruct (split_chars n r) as [a' b'] eqn:Hr. intros [= <- <-]. now apply (IH n a').
    + destruct n as [ | n' ]; [ intros [= <- <-]; discriminate | ].
      destruct (split_chars n' r) as [a' b'] eqn:Hr. intros [= <- <-] Hlong.
      apply (IH n' a'); [ exact Hr | lia ].
Qed.

Lemma last_excess (a b : text) (d : ascii) : b <> [] -> List.last (a ++ b) d = List.last b d.
Proof.
  intros Hb. induction a as [ | x a IH ]; [ reflexivity | ].
  rewrite <- app_comm_cons. cbn [List.last].
  destruct (a ++ b) eqn:Hab; [ | exact IH ].
  apply app_eq_nil in Hab as (_ & ->). congruence.
Qed.

Lemma all_spaces_last (b : text) (d : ascii) :
  forallb (Ascii.eqb " ") b = true -> b <> [] -> List.last b d = " "%char.
Proof.
  induction b as [ | x b IH ]; [ congruence | ]. cbn [forallb List.last].
  intros Hall _. apply andb_true_iff in Hall as (Hx & Hb).
  destruct b as [ | y b ]; [ symmetry; now apply Ascii.eqb_eq | ].
  apply IH; [ exact Hb | discriminate ].
Qed.

Lemma varchar_255_fits (t : string) :
  (char_length (str t) <= 255)%nat -> varchar_255 t = Some t.
Proof.
  intros Hfit. unfold varchar_255. rewrite split_chars_fits by assumption.
  cbn [forallb]. now rewrite unstr_str.
Qed.

Lemma varchar_255_kept (t t' : string) :
  varchar_255 t = Some t' -> (char_length (str t') <= 255)%nat.
Proof.
  unfold varchar_255. destruct (split_chars 255 (str t)) as [kept excess] eqn:Hsplit.
  destruct (forallb _ excess); [ | discriminate ]. intros [= <-].
  rewrite str_unstr. exact (split_chars_kept _ _ _ _ Hsplit).
Qed.

Lemma varchar_255_too_long (t : string) :
  (255 < char_length (str t))%nat -> List.last (str t) " "%char <> " "%char ->
  varchar_255 t = None.
Proof.
  intros Hlong Hlast. unfold varchar_255.
  destruct (split_chars 255 (str t)) as [kept excess] eqn:Hsplit.
  destruct (forallb _ excess) eqn:Hall; [ | reflexivity ].
  pose proof (split_chars_excess _ _ _ _ Hsplit Hlong) as Hexcess.
  rewrite (split_chars_app _ _ _ _ Hsplit), last_excess in Hlast by assumption.
  now rewrite all_spaces_last in Hlast.
Qed.

(** [post_tasks] when nothing fails. *)
Lemma post_tasks_calm (t : string) (d : option string) (w : World) :
  calm w ->
  (char_length (str t) <= 255)%nat ->
  has_nul (Some t) = false ->
  has_nul d = false ->
  tasks_id_seq w < int4_max ->
  let row := {| id := tasks_id_seq w + 1; title := t; description := d;
                completed := false; created_at := clock w; updated_at := clock w |} in
  post_tasks (Some t) d w
  = (created row,
     set_redis (delete cacheKey (redis w))
       (called (RedisDel cacheKey)
          (set_table (tasks w ++ [row]) (tasks_id_seq w + 1)
             (called (PgInsert (Some t) d) w)))).
Proof.
  intros Hcalm Hfit Ht Hd Hseq row.
  rewrite post_tasks_paths, insert_task_run, calm_meets by assumption.
  unfold pool.inserted. rewrite Ht, Hd. cbn [orb].
  rewrite varchar_255_fits by assumption. cbn [called tasks_id_seq].
  destruct (Z.leb_spec int4_max (tasks_id_seq w)); [ lia | ].
  rewrite redisClient_del_run.
  match goal with
  | |- context [ meets ?w1 ] =>
      replace (meets w1) with (@None string)
        by (symmetry; apply calm_meets; exact (calm_called (PgInsert (Some t) d) w Hcalm))
  end.
  reflexivity.
Qed.

(** X8: what a create call stores is what it was sent.  When its two
    calls settle and neither meets a fault, the title has at most 255
    characters, neither the title nor the description holds the character
    U+0000 and the id sequence is not at its end (2147483647), the call is
    answered 201 with a task that
    carries the title and the description as they were sent (nothing is
    trimmed or rewritten), the next id of the sequence, [completed = false]
    and both timestamps at the instant of the request; that row is appended
    to the table and the cache key is gone. *)
Theorem create_stores_what_was_sent (t : string) (d : option string) (w : World) :
  calm w ->
  (char_length (str t) <= 255)%nat ->
  has_nul (Some t) = false ->
  has_nul d = false ->
  tasks_id_seq w < int4_max ->
  let row := {| id := tasks_id_seq w + 1; title := t; description := d;
                completed := false; created_at := clock w; updated_at := clock w |} in
  fst (post_tasks (Some t) d w) = created row /\
  tasks (snd (post_tasks (Some t) d w)) = tasks w ++ [row] /\
  redis (snd (post_tasks (Some t) d w)) !! cacheKey = None.
Proof.
  intros Hcalm Hfit Ht Hd Hseq row.
  rewrite (post_tasks_calm t d w Hcalm Hfit Ht Hd Hseq). fold row.
  cbn. repeat split. apply lookup_delete_eq.
Qed.

Lemma create_stores_what_was_sent_witness :
  let w := init_world 1000 in
  let row := {| id := 5; title := "Write the report"; description := None;
                completed := false; created_at := 1000; updated_at := 1000 |} in
  fst (post_tasks (Some "Write the report") None w) = created row /\
  tasks (snd (post_tasks (Some "Write the report") None w)) = tasks w ++ [row] /\
  redis (snd (post_tasks (Some "Write the report") None w)) !! cacheKey = None.
Proof.
  apply (create_stores_what_was_sent "Write the report" None (init_world 1000)).
  - unfold calm. cbn. constructor.
  - vm_compute. lia.
  - reflexivity.
  - reflexivity.
  - reflexivity.
Defined.

(** X9: a title longer than the column is refused and nothing is stored.
    When the INSERT reaches the database with a title of more than 255
    characters that does not end with a space (and no parameter holds
    U+0000), the call is answered 500 with PostgreSQL's error; the table,
    the cache and the id sequence are as they were (the title is refused
    before an id is drawn), and the DEL is not sent. *)
Theorem create_rejects_long_title (t : string) (d : option string) (w : World) :
  meets w = None ->
  (255 < char_length (str t))%nat ->
  List.last (str t) " "%char <> " "%char ->
  has_nul (Some t) = false ->
  has_nul d = false ->
  fst (post_tasks (Some t) d w) = failure value_too_long /\
  tasks (snd (post_tasks (Some t) d w)) = tasks w /\
  redis (snd (post_tasks (Some t) d w)) = redis w /\
  tasks_id_seq (snd (post_tasks (Some t) d w)) = tasks_id_seq w /\
  trace (snd (post_tasks (Some t) d w)) = trace w ++ [PgInsert (Some t) d].
Proof.
  intros Hmeets Hlong Hlast Ht Hd. rewrite post_tasks_paths, insert_task_run, Hmeets.
  unfold pool.inserted. rewrite Ht, Hd. cbn [orb].
  rewrite varchar_255_too_long by assumption.
  cbn. repeat split.
Qed.

Lemma create_rejects_long_title_witness :
  let t := letters 256 in
  let w := empty_world 1000 in
  fst (post_tasks (Some t) None w) = failure value_too_long /\
  tasks (snd (post_tasks (Some t) None w)) = tasks w /\
  redis (snd (post_tasks (Some t) None w)) = redis w /\
  tasks_id_seq (snd (post_tasks (Some t) None w)) = tasks_id_seq w /\
  trace (snd (post_tasks (Some t) None w)) = trace w ++ [PgInsert (Some t) None].
Proof.
  apply (create_rejects_long_title (letters 256) None (empty_world 1000)).
  - reflexivity.
  - vm_compute. lia.
  - vm_compute. discriminate.
  - vm_compute. reflexivity.
  - reflexivity.
Defined.

Lemma post_tasks_titles (t d : option string) (w : World) :
  Forall title_fits (tasks w) -> Forall title_fits (tasks (snd (post_tasks t d w))).
Proof.
  intros Hfit. rewrite post_tasks_paths, insert_task_run.
  destruct (meets w); [ exact Hfit | ]. unfold pool.inserted.
  destruct (has_nul t || has_nul d); [ exact Hfit | ].
  destruct t as [t | ]; [ | destruct (int4_max <=? _); exact Hfit ].
  destruct (varchar_255 t) as [t' | ] eqn:Ht; [ | exact Hfit ].
  destruct (int4_max <=? _); [ exact Hfit | ].
  assert (Hnew : Forall title_fits
                   (tasks w ++ [{| id := tasks_id_seq w + 1; title := t'; description := d;
                                   completed := false; created_at := clock w;
                                   updated_at := clock w |}])).
  { apply Forall_app. split; [ exact Hfit | ]. constructor; [ | constructor ].
    exact (varchar_255_kept t t' Ht). }
  rewrite redisClient_del_run. destruct (meets _); exact Hnew.
Qed.

Lemma update_rows_titles (now i : Z) (a : Assignment) (rows rows' : list Row) :
  update_rows now i a rows = Some rows' ->
  Forall title_fits rows -> Forall title_fits rows'.
Proof.
  revert rows'. induction rows as [ | r rows IH ]; intros rows' Hupd Hfit; cbn in Hupd.
  - injection Hupd as <-. constructor.
  - inversion Hfit as [ | r0 l Hr Hrows ]; subst.
    destruct (update_rows now i a rows) as [rest | ]; [ | discriminate ].
    destruct (id r =? i).
    + destruct (assign a r) as [r' | ] eqn:Hassign; [ | discriminate ].
      injection Hupd as <-. constructor; [ | now apply IH ].
      unfold title_fits. cbn [update_updated_at_column title].
      destruct a as [t | ? | ? | ? ]; cbn in Hassign.
      * destruct (varchar_255 t) as [t' | ] eqn:Ht; [ | discriminate ].
        injection Hassign as <-. exact (varchar_255_kept t t' Ht).
      * injection Hassign as <-. exact Hr.
      * injection Hassign as <-. exact Hr.
      * injection Hassign as <-. exact Hr.
    + injection Hupd as <-. constructor; [ exact Hr | now apply IH ].
Qed.

Lemma step_titles (w w' : World) :
  step w w' -> Forall title_fits (tasks w) -> Forall title_fits (tasks w').
Proof.
  intros [ex [ | | t d] w0 | i a w0 | dt w0 _ | fs w0 ] Hfit; cbn [app]; try exact Hfit.
  - now destruct (get_tasks_frame ex w0) as (-> & _).
  - now apply post_tasks_titles.
  - unfold sql_update. destruct (update_rows _ _ _ _) as [rows' | ] eqn:Hupd; [ | exact Hfit ].
    exact (update_rows_titles _ _ _ _ _ Hupd Hfit).
Qed.

(** X10: no stored title is longer than the column.  In every world the
    system reaches, every task of the table has a title of at most 255
    characters (characters, not bytes): the sample rows have, and a create
    call or an update stores a title only through VARCHAR(255). *)
Theorem stored_titles_fit (w : World) :
  reachable w -> Forall title_fits (tasks w).
Proof.
  assert (Hsteps : forall w0, Forall title_fits (tasks w0) -> steps w0 w ->
                              Forall title_fits (tasks w)).
  { intros w0 Hfit Hsteps. induction Hsteps as [ | w1 w2 w3 _ IH Hstep ]; [ exact Hfit | ].
    apply (step_titles w2 w3 Hstep), IH, Hfit. }
  intros (now & [Hrun | Hrun]).
  - apply (Hsteps (init_world now)); [ | exact Hrun ].
    cbn. repeat constructor; unfold title_fits; apply Nat.leb_le; vm_compute; reflexivity.
  - apply (Hsteps (empty_world now)); [ constructor | exact Hrun ].
Qed.

Lemma stored_titles_fit_witness : Forall title_fits (tasks busy_day).
Proof. apply (stored_titles_fit busy_day). exact busy_day_reachable. Defined.

(** ** The Node process: requests served one at a time *)

Lemma settle_idle (n : nat) (ex : Executor) (w : World) (resp : list (nat * Response))
    (k : nat) :
  handle (Settles n ex)
    {| world := w; exited := None; redis_reachable := true; suspended := ∅;
       responses := resp; accepted := k |}
  = {| world := w; exited := None; redis_reachable := true; suspended := ∅;
       responses := resp; accepted := k |}.
Proof. unfold handle. cbn. now rewrite lookup_empty. Qed.

Lemma settle_one (n : nat) (ex : Executor) (h : Suspended) (w : World)
    (resp : list (nat * Response)) (k : nat) :
  handle (Settles n ex)
    {| world := w; exited := None; redis_reachable := true; suspended := <[n := h]> ∅;
       responses := resp; accepted := k |}
  = match resume ex h w with
    | (inl res, w') =>
        {| world := w'; exited := None; redis_reachable := true; suspended := ∅;
           responses := resp ++ [(n, res)]; accepted := k |}
    | (inr h', w') =>
        {| world := w'; exited := None; redis_reachable := true;
           suspended := <[n := h']> ∅; responses := resp; accepted := k |}
    end.
Proof.
  unfold handle. cbn. rewrite lookup_insert_eq, andb_false_r.
  destruct (resume ex h w) as [[res | h'] w'].
  - now rewrite delete_insert_eq, delete_empty.
  - now rewrite insert_insert_eq.
Qed.

(** A request served alone is served as the handler of Part I serves it:
    the world it leaves and the response it sends are those of [app]. *)
Lemma served_alone_atomic (ex : Executor) (req : Request) (p : Process) :
  idle p ->
  served_alone ex req p
  = {| world := snd (app ex req (world p)); exited := None; redis_reachable := true;
       suspended := ∅;
       responses := responses p ++ [(accepted p, fst (app ex req (world p)))];
       accepted := S (accepted p) |}.
Proof.
  destruct p as [w e r sus resp n]. intros (He & Hr & Hs). cbn in He, Hr, Hs. subst.
  unfold served_alone, run. cbn [fold_left accepted world responses].
  destruct req as [ | | t d ].
  - unfold handle at 4. cbn [exited start world suspended responses accepted redis_reachable].
    now rewrite !settle_idle.
  - unfold handle at 4. cbn [exited start world suspended responses accepted redis_reachable].
    cbn [app]. rewrite get_tasks_paths.
    rewrite settle_one. cbn [resume]. unfold redisClient.get at 1. unfold external at 1.
    destruct (meets w) as [m | ]; cbn [settled]; [ now rewrite !settle_idle | ].
    change (redis (called (RedisGet cacheKey) w)) with (redis w).
    change (clock (called (RedisGet cacheKey) w)) with (clock w).
    destruct (truthy _) as [hit | ];
      [ destruct (JSON.parse hit); now rewrite !settle_idle | ].
    rewrite settle_one. cbn [resume]. unfold pool.query_select at 1. unfold external at 1.
    destruct (meets (called (RedisGet cacheKey) w)) as [m | ]; cbn [settled];
      [ now rewrite !settle_idle | ].
    rewrite settle_one. cbn [resume]. unfold redisClient.setEx at 1. unfold external at 1.
    change (tasks (called PgSelect (called (RedisGet cacheKey) w))) with (tasks w).
    destruct (meets (called PgSelect _)) as [m | ]; cbn [settled]; reflexivity.
  - unfold handle at 4. cbn [exited start world suspended responses accepted redis_reachable].
    cbn [app]. rewrite post_tasks_paths.
    rewrite settle_one. cbn [resume].
    destruct (pool.query_insert t d w) as [[row | m] w1]; cbn [settled];
      [ | now rewrite !settle_idle ].
    rewrite settle_one. cbn [resume].
    change (redisClient.del "tasks:all") with (redisClient.del cacheKey).
    destruct (redisClient.del cacheKey w1) as [[[] | m] w2]; cbn [settled];
      now rewrite !settle_idle.
Qed.

Lemma turn_idle (t : Turn) (p : Process) : idle p -> idle (turn t p).
Proof.
  intros Hidle. destruct t as [ex req | d | fs ].
  - cbn [turn]. rewrite served_alone_atomic by assumption. repeat split.
  - destruct Hidle as (He & Hr & Hs). unfold turn, handle. rewrite He. repeat split; assumption.
  - destruct Hidle as (He & Hr & Hs). unfold turn, handle. rewrite He. repeat split; assumption.
Qed.

Lemma turn_api_step (t : Turn) (p : Process) :
  idle p -> api_step (world p) (world (turn t p)).
Proof.
  intros Hidle. destruct t as [ex req | d | fs ].
  - cbn [turn]. rewrite served_alone_atomic by assumption. apply api_request.
  - destruct Hidle as (He & _). unfold turn, handle. rewrite He. apply api_tick. lia.
  - destruct Hidle as (He & _). unfold turn, handle. rewrite He. apply api_faults.
Qed.

Lemma turn_clean_step (t : Turn) (p : Process) :
  idle p -> kept_or_created p (turn t p) -> clean_step (world p) (world (turn t p)).
Proof.
  intros Hidle Hkept. destruct t as [ex req | d | fs ].
  - cbn [turn] in *. rewrite served_alone_atomic in * by assumption. cbn [world responses] in *.
    apply clean_request. destruct Hkept as [Hsame | (n & res & Hres & H201)]; [ now left | ].
    right. apply app_inv_head in Hres. now injection Hres as _ <-.
  - destruct Hidle as (He & _). unfold turn, handle. rewrite He. apply clean_tick. lia.
  - destruct Hidle as (He & _). unfold turn, handle. rewrite He. apply clean_faults.
Qed.

Lemma in_turn_idle (ts : list Turn) (p : Process) : idle p -> idle (in_turn ts p).
Proof.
  revert p. induction ts as [ | t ts IH ]; intros p Hidle; [ exact Hidle | ].
  apply IH, turn_idle, Hidle.
Qed.

Lemma api_run_trans (w1 w2 w3 : World) : api_run w1 w2 -> api_run w2 w3 -> api_run w1 w3.
Proof.
  intros H12 H23. induction H23 as [ | w2 w3 w4 _ IH Hstep ]; [ exact H12 | ].
  eapply api_next; [ now apply IH | exact Hstep ].
Qed.

Lemma clean_run_trans (w1 w2 w3 : World) :
  clean_run w1 w2 -> clean_run w2 w3 -> clean_run w1 w3.
Proof.
  intros H12 H23. induction H23 as [ | w2 w3 w4 _ IH Hstep ]; [ exact H12 | ].
  eapply clean_next; [ now apply IH | exact Hstep ].
Qed.

Lemma in_turn_api_run (ts : list Turn) (p : Process) :
  idle p -> api_run (world p) (world (in_turn ts p)).
Proof.
  revert p. induction ts as [ | t ts IH ]; intros p Hidle; [ apply api_refl | ].
  apply (api_run_trans _ (world (turn t p))).
  - eapply api_next; [ apply api_refl | now apply turn_api_step ].
  - apply IH, turn_idle, Hidle.
Qed.

Lemma in_turn_clean_run (ts : list Turn) (p : Process) :
  idle p -> each_turn kept_or_created ts p -> clean_run (world p) (world (in_turn ts p)).
Proof.
  revert p. induction ts as [ | t ts IH ]; intros p Hidle Hkept; [ apply clean_refl | ].
  destruct Hkept as (Hfirst & Hrest).
  apply (clean_run_trans _ (world (turn t p))).
  - eapply clean_next; [ apply clean_refl | now apply turn_clean_step ].
  - apply IH; [ apply turn_idle, Hidle | exact Hrest ].
Qed.

Lemma api_run_steps (w w' : World) : api_run w w' -> steps w w'.
Proof.
  induction 1 as [ | w1 w2 w3 _ IH Hstep ]; [ apply steps_refl | ].
  eapply steps_next; [ exact IH | ].
  destruct Hstep as [ex req w0 | d w0 Hd | fs w0 ];
    [ apply step_request | now apply step_tick | apply step_faults ].
Qed.

(** X6: the cache is never stale as long as requests are served one at a
    time, the API is the only client of the database and no create call has
    stored its row and then failed.  From a process in which nothing is in
    flight and whose cache agrees with the table (an empty cache, say),
    through any sequence of turns (a request served alone from its arrival
    to its response, time passing, rejections coming and going) each of
    which has left the table as it was or has been answered 201, a list call
    served alone is answered, and when it is answered 200 it gives, from the
    cache or from the database, exactly the tasks the table holds at that
    moment, ordered by [created_at] descending.  Without the first condition
    this fails: see [interleaving_leaves_a_stale_list]. *)
Theorem list_is_current_when_served_in_turn (ts : list Turn) (ex : Executor)
    (p0 : Process) :
  idle p0 ->
  coherent (world p0) ->
  each_turn kept_or_created ts p0 ->
  let p := in_turn ts p0 in
  exists res : Response,
    responses (served_alone ex GET_api_tasks p) = responses p ++ [(accepted p, res)] /\
    (status res = 200 ->
     exists (source : string) (data : value) (rows : list Row),
       body res = VObj [("source", VStr source); ("data", data)] /\
       JSON.plain data = JSON.plain (rows_to_js rows) /\
       Sorted created_desc rows /\
       Permutation rows (tasks (world p))).
Proof.
  intros Hidle Hco Hkept p.
  rewrite served_alone_atomic by (apply in_turn_idle, Hidle). cbn [responses app].
  exists (fst (get_tasks ex (world p))). split; [ reflexivity | ].
  apply (clean_run_current ex (world p0) (world p)); [ exact Hco | ].
  now apply in_turn_clean_run.
Qed.

Lemma list_is_current_when_served_in_turn_witness :
  let ts := [Serves plan_id_asc (POST_api_tasks (Some "A") (Some "d1"));
             Serves plan_id_asc GET_api_tasks;
             Waits 2000;
             Serves plan_id_asc (POST_api_tasks (Some "B") (Some "d2"))] in
  let p := in_turn ts (boot (empty_world 1000)) in
  exists res : Response,
    responses (served_alone plan_id_desc GET_api_tasks p) = responses p ++ [(accepted p, res)] /\
    (status res = 200 ->
     exists (source : string) (data : value) (rows : list Row),
       body res = VObj [("source", VStr source); ("data", data)] /\
       JSON.plain data = JSON.plain (rows_to_js rows) /\
       Sorted created_desc rows /\
       Permutation rows (tasks (world p))).
Proof.
  apply (list_is_current_when_served_in_turn
           [Serves plan_id_asc (POST_api_tasks (Some "A") (Some "d1"));
            Serves plan_id_asc GET_api_tasks;
            Waits 2000;
            Serves plan_id_asc (POST_api_tasks (Some "B") (Some "d2"))]
           plan_id_desc (boot (empty_world 1000))).
  - repeat split.
  - apply coherent_no_key. reflexivity.
  - cbn [each_turn]. repeat split.
    + right. exists 0%nat, (created rowA). split; vm_compute; reflexivity.
    + left. vm_compute. reflexivity.
    + left. vm_compute. reflexivity.
    + right. exists 2%nat, (created rowB). split; vm_compute; reflexivity.
Defined.

(** The interleaving of the specification, on the empty table: both
    requests are answered without an error, the create call first; the
    table then holds task A, and the cache holds the empty list the list
    call had read, which the next list call serves. *)
Example interleaving_leaves_a_stale_list :
  let p := run (interleaved plan_id_asc (Some "A") (Some "d1")) (boot (empty_world 1000)) in
  map (fun r => (fst r, status (snd r))) (responses p) = [(1%nat, 201); (0%nat, 200)] /\
  exited p = None /\
  tasks (world p) = [rowA] /\
  fst (get_tasks plan_id_asc (world p)) = from_cache (VArr []).
Proof. vm_compute. repeat split. Qed.

Lemma older_pairs (rows : list Row) (a b : Row) :
  StronglySorted older rows -> In a rows -> In b rows -> id a < id b ->
  created_at a <= created_at b.
Proof.
  induction 1 as [ | r rows Hsorted IH Hr ]; [ intros [] | ].
  rewrite Forall_forall in Hr.
  intros [<- | Ha] [<- | Hb] Hid.
  - lia.
  - apply list_elem_of_In, Hr in Hb. unfold older in Hb. lia.
  - apply list_elem_of_In, Hr in Ha. unfold older in Ha. lia.
  - now apply IH.
Qed.

(** X7: ids follow the order of creation, as long as requests are served
    one at a time, the API is the only client of the database and its clock
    does not go backwards.  From the sample rows of 01-init.sql or from an
    empty table, through any sequence of turns, of any two tasks of the
    table the one with the smaller id was not created after the other. *)
Theorem ids_follow_creation (ts : list Turn) (p0 : Process) (now : Z) (a b : Row) :
  p0 = boot (init_world now) \/ p0 = boot (empty_world now) ->
  let w := world (in_turn ts p0) in
  In a (tasks w) -> In b (tasks w) -> id a < id b ->
  created_at a <= created_at b.
Proof.
  intros Hboot w. apply older_pairs. subst w.
  assert (Hidle : idle p0) by (destruct Hboot as [-> | ->]; repeat split).
  pose proof (api_run_steps _ _ (in_turn_api_run ts p0 Hidle)) as Hsteps.
  destruct Hboot as [-> | ->]; cbn [boot world] in Hsteps.
  - apply (steps_older _ _ Hsteps (init_world_table_ok now)).
    cbn. unfold older. repeat constructor; cbn; lia.
  - apply (steps_older _ _ Hsteps (empty_world_table_ok now)). constructor.
Qed.

Lemma ids_follow_creation_witness :
  created_at (sample 4 "Implement CI/CD" "Setup Jenkins pipeline for automated deployments"
                false 1000)
  <= created_at {| id := 5; title := "Write the report"; description := None;
                   completed := false; created_at := 6000; updated_at := 6000 |}.
Proof.
  apply (ids_follow_creation
           [Waits 5000; Serves plan_id_asc (POST_api_tasks (Some "Write the report") None)]
           (boot (init_world 1000)) 1000).
  - left. reflexivity.
  - vm_compute. tauto.
  - vm_compute. tauto.
  - vm_compute. reflexivity.
Defined.

(** While Redis cannot be reached, a handler that awaits Redis is not
    resumed: its request has no answer. *)
Lemma unanswered_while_redis_is_lost (n : nat) (ex : Executor) (h : Suspended) (p : Process) :
  redis_reachable p = false -> suspended p !! n = Some h -> awaits_redis h = true ->
  handle (Settles n ex) p = p.
Proof.
  intros Hlost Hn Hredis. unfold handle. rewrite Hn, Hredis, Hlost.
  now destruct (exited p).
Qed.

(** Redis is lost while a create call awaits its DEL: the row is in the
    table, and the caller has no answer. *)
Example create_unanswered_while_redis_is_lost :
  let p := run [Arrives (POST_api_tasks (Some "A") (Some "d1")); Settles 0 plan_id_asc;
                RedisReachable false; Settles 0 plan_id_asc]
             (boot (empty_world 1000)) in
  tasks (world p) = [rowA] /\ responses p = [] /\ suspended p !! 0%nat = Some (await_del rowA).
Proof. vm_compute. repeat split. Qed.

(** ** The page: fetchTasks *)

Lemma response_json_plain (response : Response) :
  App.response_json (answers response) = Ret (JSON.plain (body response)).
Proof. unfold App.response_json. now rewrite JSON_parse_stringify. Qed.

(** [fetchTasks] once the list call has been answered. *)
Lemma fetchTasks_run (ex : Executor) (p : App.Page) (w : World) :
  App.fetchTasks ex (p, w)
  = match App.rejects p with
    | Some m => (App.console_error "Error fetching tasks:" m (App.sent p), w)
    | None =>
        match property "data" (JSON.plain (body (fst (get_tasks ex w)))) with
        | Throw m =>
            (App.console_error "Error fetching tasks:" m (App.sent p), snd (get_tasks ex w))
        | Ret d => (App.setTasks (or_else d (VArr [])) (App.sent p), snd (get_tasks ex w))
        end
    end.
Proof.
  unfold App.fetchTasks, App.fetch. destruct (App.rejects p); [ reflexivity | ].
  unfold express_json. cbn [String.length app].
  change (body_limit <? N.of_nat 0)%N with false.
  destruct (get_tasks ex w) as [response w']. cbv beta iota zeta. cbn [fst snd].
  now rewrite response_json_plain.
Qed.

(** The three responses of a list call. *)
Lemma get_tasks_responses (ex : Executor) (w : World) :
  cache_ok w ->
  (exists m, fst (get_tasks ex w) = failure m) \/
  (exists rows, Sorted created_desc rows /\
                fst (get_tasks ex w) = from_cache (JSON.plain (rows_to_js rows))) \/
  (fst (get_tasks ex w) = from_database (order_by_created_at_desc ex (tasks w))).
Proof.
  intros Hcache. rewrite get_tasks_paths.
  destruct (meets w) as [m | ]; [ left; now exists m | ].
  destruct (truthy _) as [hit | ] eqn:Hhit.
  - destruct (cached_text_parses w hit Hcache Hhit) as (rows & _ & Hsorted & ->).
    right. left. now exists rows.
  - destruct (meets _) as [m | ]; [ left; now exists m | ].
    destruct (meets _) as [m | ]; [ left; now exists m | ]. now right; right.
Qed.

Lemma card_shown (r : Row) : App.card (JSON.plain (row_to_js r)) = Ret (shown r).
Proof. unfold shown. destruct r as [i t [d | ] c created updated]; reflexivity. Qed.

Lemma cards_shown (rows : list Row) :
  App.cards (map JSON.plain (map row_to_js rows)) = Ret (map shown rows).
Proof.
  induction rows as [ | r rows IH ]; [ reflexivity | ].
  cbn [map App.cards]. now rewrite card_shown, IH.
Qed.

(** The page once it holds the JSON reading of [rows]. *)
Lemma render_rows (p : App.Page) (rows : list Row) :
  App.tasks p = JSON.plain (rows_to_js rows) -> App.render p = Ret (map shown rows).
Proof. unfold App.render. intros ->. apply cards_shown. Qed.

(** [fetchTasks] once the list call has been answered 200. *)
Lemma fetchTasks_ok (ex : Executor) (p : App.Page) (w : World) (source : string)
    (data : value) :
  App.rejects p = None ->
  body (fst (get_tasks ex w)) = VObj [("source", VStr source); ("data", data)] ->
  js_truthy (JSON.plain data) = true ->
  App.fetchTasks ex (p, w) = (App.setTasks (JSON.plain data) (App.sent p), snd (get_tasks ex w)).
Proof.
  intros Hnet Hbody Htruthy. rewrite fetchTasks_run, Hnet, Hbody. cbn.
  now rewrite Htruthy.
Qed.

(** X12: the page shows what the list call answered.  When the network
    delivers the request and the server answers 200, [fetchTasks] leaves in
    [tasks] the JSON reading of a sequence of rows ordered by [created_at]
    descending, the very data of the response; the page renders one card for
    each row, in that order, with the id as key, the title in [<h3>] and the
    description (or [null], which renders nothing) in [<p>]; the form is as
    it was and nothing is written to the console. *)
Theorem page_shows_the_list (ex : Executor) (p : App.Page) (w : World) :
  cache_ok w ->
  App.rejects p = None ->
  status (fst (get_tasks ex w)) = 200 ->
  let p' := fst (App.fetchTasks ex (p, w)) in
  exists (source : string) (data : value) (rows : list Row),
    body (fst (get_tasks ex w)) = VObj [("source", VStr source); ("data", data)] /\
    Sorted created_desc rows /\
    App.tasks p' = JSON.plain data /\
    App.tasks p' = JSON.plain (rows_to_js rows) /\
    App.render p' = Ret (map shown rows) /\
    App.title p' = App.title p /\
    App.description p' = App.description p /\
    App.console p' = App.console p.
Proof.
  intros Hcache Hnet H200 p'. subst p'.
  destruct (get_tasks_responses ex w Hcache) as [(m & Hres) | [(rows & Hsorted & Hres) | Hres]];
    [ rewrite Hres in H200; discriminate | | ].
  - exists "cache", (JSON.plain (rows_to_js rows)), rows.
    rewrite (fetchTasks_ok ex p w "cache" (JSON.plain (rows_to_js rows)));
      [ | assumption | now rewrite Hres | now rewrite plain_idempotent ].
    cbn [fst]. rewrite Hres.
    repeat split; try assumption; try apply plain_idempotent.
    apply render_rows. apply plain_idempotent.
  - exists "database", (rows_to_js (order_by_created_at_desc ex (tasks w))),
      (order_by_created_at_desc ex (tasks w)).
    rewrite (fetchTasks_ok ex p w "database"
               (rows_to_js (order_by_created_at_desc ex (tasks w))));
      [ | assumption | now rewrite Hres | reflexivity ].
    cbn [fst]. rewrite Hres.
    repeat split; [ apply order_by_sorted | now apply render_rows ].
Qed.

Lemma page_shows_the_list_witness :
  let p := App.initial [] in
  let w := after_create_B in
  let p' := fst (App.fetchTasks plan_id_asc (p, w)) in
  exists (source : string) (data : value) (rows : list Row),
    body (fst (get_tasks plan_id_asc w)) = VObj [("source", VStr source); ("data", data)] /\
    Sorted created_desc rows /\
    App.tasks p' = JSON.plain data /\
    App.tasks p' = JSON.plain (rows_to_js rows) /\
    App.render p' = Ret (map shown rows) /\
    App.title p' = App.title p /\
    App.description p' = App.description p /\
    App.console p' = App.console p.
Proof.
  apply (page_shows_the_list plan_id_asc (App.initial []) after_create_B).
  - apply post_tasks_cache_ok. apply (cache_ok_redis after_first_list); [ reflexivity | ].
    exact after_first_list_cache_ok.
  - reflexivity.
  - vm_compute. reflexivity.
Defined.

(** X13: a failed list call empties the page.  When the server answers
    500, the fetch resolves all the same and the body [{ error }] has no
    [data]: [fetchTasks] sets [tasks] to the empty array, so the tasks that
    were on the page are gone and no card is rendered, and the error is
    neither shown nor written to the console. *)
Theorem failed_list_empties_the_page (ex : Executor) (p : App.Page) (w : World) (m : string) :
  App.rejects p = None ->
  fst (get_tasks ex w) = failure m ->
  App.fetchTasks ex (p, w) = (App.setTasks (VArr []) (App.sent p), snd (get_tasks ex w)) /\
  App.render (fst (App.fetchTasks ex (p, w))) = Ret [] /\
  App.console (fst (App.fetchTasks ex (p, w))) = App.console p.
Proof.
  intros Hnet Hres. rewrite fetchTasks_run, Hnet, Hres. cbn. repeat split.
Qed.

Lemma failed_list_empties_the_page_witness :
  let p := App.setTasks (JSON.plain (rows_to_js [rowA])) (App.initial []) in
  let w := with_faults [Some redis_loading] after_create_B in
  App.fetchTasks plan_id_asc (p, w)
  = (App.setTasks (VArr []) (App.sent p), snd (get_tasks plan_id_asc w)) /\
  App.render (fst (App.fetchTasks plan_id_asc (p, w))) = Ret [] /\
  App.console (fst (App.fetchTasks plan_id_asc (p, w))) = App.console p.
Proof.
  apply (failed_list_empties_the_page plan_id_asc
           (App.setTasks (JSON.plain (rows_to_js [rowA])) (App.initial []))
           (with_faults [Some redis_loading] after_create_B)
           redis_loading).
  - reflexivity.
  - vm_compute. reflexivity.
Defined.

(** The page after its first render, on the database 01-init.sql has set
    up: the four sample tasks. *)
Example page_after_first_render :
  App.render (fst (App.mounted plan_id_asc [] (init_world 1000)))
  = Ret (map shown (init_rows 1000)).
Proof. vm_compute. reflexivity. Qed.

(** ** The page: createTask *)

(** X14: what is typed in the form is what the handler is given.  For
    every title and description (quotes, backslashes, control characters and
    bytes of any encoding included), the text [JSON.stringify({ title,
    description })] that [createTask] sends parses, and the [title] and
    [description] the handler destructures from the parsed body are the two
    strings of the form, unchanged.  The title that reaches the INSERT is
    thus always a string, never missing. *)
Theorem form_reaches_the_handler (p : App.Page) :
  exists body : value,
    JSON.parse (App.request_body p) = Some body /\
    property "title" body = Ret (Some (VStr (App.title p))) /\
    property "description" body = Ret (Some (VStr (App.description p))).
Proof.
  unfold App.request_body. rewrite JSON_parse_stringify. eexists.
  split; [ reflexivity | ]. split; reflexivity.
Qed.

(** What [fetchTasks] leaves of the page and of the world. *)
Lemma fetchTasks_frame (ex : Executor) (p : App.Page) (w : World) :
  let p' := fst (App.fetchTasks ex (p, w)) in
  let w' := snd (App.fetchTasks ex (p, w)) in
  App.title p' = App.title p /\
  App.description p' = App.description p /\
  (App.console p' = App.console p \/
   exists m, App.console p' = App.console p ++ [("Error fetching tasks:", m)]) /\
  (w' = w \/ w' = snd (get_tasks ex w)).
Proof.
  cbv zeta. rewrite fetchTasks_run.
  destruct (App.rejects p) as [m | ]; [ cbn; eauto 10 | ].
  destruct (property "data" _) as [d | m]; cbn; eauto 10.
Qed.

(** X15: [createTask] does not look at the answer of the server.  When
    the network rejects the POST, the form and the list stay as they are,
    the server has seen nothing and the error goes to the console.  When
    the network delivers it, whatever the server answers (201, or 500 with
    nothing stored, or 500 with the task stored, or 413 from the body parser
    for a body of more than 100kb, which the handler never sees), the form
    is emptied, so the text of a task that was refused is lost; nothing is
    written to the console about the create call, and the list is asked for
    again. *)
Theorem create_ignores_the_answer (ex : Executor) (p : App.Page) (w : World) :
  let t := App.title p in
  let d := App.description p in
  let p' := fst (App.createTask ex (p, w)) in
  let w' := snd (App.createTask ex (p, w)) in
  match App.rejects p with
  | Some m =>
      p' = App.console_error "Error creating task:" m (App.sent p) /\ w' = w
  | None =>
      let w1 := snd (express_json (App.request_body p) (post_tasks (Some t) (Some d)) w) in
      App.title p' = "" /\
      App.description p' = "" /\
      (App.console p' = App.console p \/
       exists m, App.console p' = App.console p ++ [("Error fetching tasks:", m)]) /\
      (w' = w1 \/ w' = snd (get_tasks ex w1)) /\
      w1 = (if (body_limit <? N.of_nat (String.length (App.request_body p)))%N then w
            else snd (post_tasks (Some t) (Some d) w))
  end.
Proof.
  cbv zeta. unfold App.createTask, App.fetch. cbn [fst snd].
  destruct (App.rejects p) as [m | ]; [ split; reflexivity | ].
  cbn [app].
  assert (Hw1 : snd (express_json (App.request_body p)
                       (post_tasks (Some (App.title p)) (Some (App.description p))) w)
                = (if (body_limit <? N.of_nat (String.length (App.request_body p)))%N then w
                   else snd (post_tasks (Some (App.title p)) (Some (App.description p)) w))).
  { unfold express_json. destruct (body_limit <? _)%N; [ reflexivity | ].
    now destruct (post_tasks _ _ w). }
  destruct (express_json _ _ w) as [reply w1]. cbn [fst snd] in *.
  destruct (fetchTasks_frame ex (App.setDescription "" (App.setTitle "" (App.sent p))) w1)
    as (Htitle & Hdescription & Hconsole & Hworld).
  repeat split; assumption.
Qed.





